(** * github_commits_fetcher: the resumable commit harvest of [fetcher.py]

    A shallow embedding of [GitHubCommitsFetcher]: the rate-limit check
    ([handle_rate_limit]), the two request loops ([fetch_commits],
    [fetch_commit_details]), the per-item worker ([process_commit]), the
    page merge and the pagination loop ([process_commits]), the progress
    file ([save_progress], [load_progress], with the text [json.dump]
    writes and a reader for it), the constructor and the paths of the file
    dump ([save_commit_files]).

    Conventions.
    - A Python [str] is a [string]; a character is a code point below 256.
    - [self.processed_commits] is a [gset string], [self.commits_info] a list.
    - A loop that may run forever ([while True], [while not ...]) takes a
      fuel argument; running out of it is the result [OutOfFuel], which is
      never confused with a returned value.
    - The network and the wall clock are an oracle: the k-th [session.get]
      of a call yields an [exchange], the outcome together with what
      [time.time()] reads while that outcome is handled.
    - A Python [float] is a rational and its arithmetic is exact: rounding
      is not modelled. The conversion of an [int] that has no float raises,
      and so does a [time.sleep] the platform refuses.
    - Paths are those of POSIX: [os.path.join] is [posixpath.join].
    - The listing items are well formed (every key [process_commit] reads is
      there), and the writes of [save_commit_files] and of [save_progress]
      succeed: the exceptions of the file system are not part of the model. *)

From Stdlib Require Import Ascii String QArith Lqa.
From stdpp Require Import gmap strings list pretty.

Set Default Proof Using "Type".

Open Scope string_scope.
Open Scope list_scope.
Open Scope Z_scope.

(** ** Results of calls that may raise or run forever *)

Inductive exn : Type :=
| ValueError      (* int() on a str that is no integer literal *)
| KeyError        (* a header that is not there *)
| OverflowError   (* an int too large for a float, a duration too large to sleep *)
| OSError.        (* a system call that fails *)

Inductive res (A : Type) : Type :=
| Ret (a : A)
| Raise (e : exn)
| OutOfFuel.

Arguments Ret {A} a.
Arguments Raise {A} e.
Arguments OutOfFuel {A}.

#[export] Instance exn_eq_dec : EqDecision exn.
Proof. solve_decision. Defined.

#[export] Instance res_eq_dec {A} `{EqDecision A} : EqDecision (res A).
Proof. solve_decision. Defined.

#[export] Instance res_ret : MRet res := fun A a => Ret a.

#[export] Instance res_bind : MBind res := fun A B f m =>
  match m with
  | Ret a => f a
  | Raise e => Raise e
  | OutOfFuel => OutOfFuel
  end.

Definition of_option {A} (e : exn) (o : option A) : res A :=
  match o with
  | Some a => Ret a
  | None => Raise e
  end.

(** ** Strings *)

(** [s.split("/")]: the pieces between the separators, at least one. *)
Fixpoint split_slash (s : string) : list string :=
  match s with
  | EmptyString => [EmptyString]
  | String c rest =>
      if Ascii.eqb c "/"%char then EmptyString :: split_slash rest
      else match split_slash rest with
           | piece :: pieces => String c piece :: pieces
           | [] => [String c EmptyString]
           end
  end.

(** [s.split("/")[-1]] *)
Definition last_segment (s : string) : string :=
  List.last (split_slash s) EmptyString.

Definition lower_char (c : ascii) : ascii :=
  let n := nat_of_ascii c in
  if ((65 <=? n) && (n <=? 90))%nat then ascii_of_nat (n + 32) else c.

Fixpoint lower (s : string) : string :=
  match s with
  | EmptyString => EmptyString
  | String c rest => String (lower_char c) (lower rest)
  end.

(** A decimal literal of ASCII digits with an optional sign: the instance of
    Python's [int] used on concrete inputs below. *)
Definition digit_of (c : ascii) : option Z :=
  let n := nat_of_ascii c in
  if ((48 <=? n) && (n <=? 57))%nat then Some (Z.of_nat (n - 48)) else None.

Fixpoint digits_value (acc : Z) (s : string) : option Z :=
  match s with
  | EmptyString => Some acc
  | String c rest =>
      match digit_of c with
      | Some d => digits_value (10 * acc + d) rest
      | None => None
      end
  end.

Definition int_of_decimal (s : string) : option Z :=
  match s with
  | EmptyString => None
  | String "-" (String c rest) => Z.opp <$> digits_value 0 (String c rest)
  | String "+" (String c rest) => digits_value 0 (String c rest)
  | _ => digits_value 0 s
  end.

(** ** HTTP *)

(** [response.headers] is a case-insensitive dict: it is keyed here by the
    lower-cased field name, and looked up with the key lower-cased. *)
Record response (A : Type) : Type := mk_response {
  status_code : Z;
  headers : gmap string string;
  json : option A   (* [response.json()]; [None]: the body does not decode *)
}.

Arguments mk_response {A}.
Arguments status_code {A}.
Arguments headers {A}.
Arguments json {A}.

Definition header {A} (r : response A) (name : string) : option string :=
  headers r !! lower name.

(** What [session.get] does: it returns a response, or raises a
    [RequestException] that is no [HTTPError] (connection error, timeout,
    [RetryError] once the adapter's 5 retries on 429/500/502/503/504 are spent). *)
Inductive outcome (A : Type) : Type :=
| Responded (r : response A)
| RequestFailed.

Arguments Responded {A} r.
Arguments RequestFailed {A}.

Record exchange (A : Type) : Type := mk_exchange {
  ex_outcome : outcome A;
  ex_clock : Q       (* [time.time()] while this outcome is handled *)
}.

Arguments mk_exchange {A}.
Arguments ex_outcome {A}.
Arguments ex_clock {A}.

(** The ints that have a float are those below [float_limit] in absolute
    value: 2^1024 less half a unit in the last place of the largest double. *)
Definition float_limit : Z := 2 ^ 1024 - 2 ^ 970.

Arguments float_limit : simpl never.

(** The float an [int] becomes as an operand of a [float], line 97; the
    conversion of an int that has none raises [OverflowError]. *)
Definition float_of_int (n : Z) : res Q :=
  if Z.abs n <? float_limit then Ret (inject_Z n) else Raise OverflowError.

(** What [handle_rate_limit] did: its return value and the argument of
    [time.sleep], when it was called. *)
Record rate_limit_verdict : Type := mk_verdict {
  retry : bool;
  slept : option Q
}.

(** ** The data of the harvest *)

(** An item of the listing, as [process_commit] reads it. *)
Record commit : Type := mk_commit {
  sha : string;                  (* commit["sha"] *)
  url : string;                  (* commit["url"], the detail endpoint *)
  html_url : string;             (* commit["html_url"] *)
  author_name : string;          (* commit["commit"]["author"]["name"] *)
  author_date : string;          (* commit["commit"]["author"]["date"] *)
  message : string;              (* commit["commit"]["message"] *)
  author : option string         (* commit["author"]: null, or a user and its login *)
}.

(** The detail of an item: its changed files, each a name and a patch. *)
Record commit_detail : Type := mk_detail {
  files : list (string * option string)
}.

(** The dict built at lines 179-185, by its five keys. *)
Record commit_info : Type := mk_info {
  Commit_URL : string;
  Author_Name : string;
  Author_URL : string;
  Commit_Date : string;
  Commit_Message : string
}.

#[export] Instance commit_info_eq_dec : EqDecision commit_info.
Proof. solve_decision. Defined.

(** [self]: the configuration and the two fields that hold the progress. *)
Record fetcher : Type := mk_fetcher {
  repo_owner : string;
  repo_name : string;
  per_page : nat;
  commit_hash_end : option string;
  save_files : bool;
  commits_info : list commit_info;
  processed_commits : gset string
}.

Definition set_progress (self : fetcher) (infos : list commit_info)
  (processed : gset string) : fetcher :=
  {| repo_owner := repo_owner self;
     repo_name := repo_name self;
     per_page := per_page self;
     commit_hash_end := commit_hash_end self;
     save_files := save_files self;
     commits_info := infos;
     processed_commits := processed |}.

(** The record lines 165-185 build from a listing item. *)
Definition normalized (commit : commit) : commit_info :=
  {| Commit_URL := html_url commit;
     Author_Name := author_name commit;
     Author_URL :=
       match author commit with
       | Some login => "https://github.com/" +:+ login
       | None => "N/A"
       end;
     Commit_Date := author_date commit;
     Commit_Message := message commit |}.

(** The identifier the merge files a record under, line 209. *)
Definition ident (info : commit_info) : string :=
  last_segment (Commit_URL info).

(** An exchange that makes the request loop go round again: a 403. *)
Definition forbidden {A} (ex : exchange A) : bool :=
  match ex_outcome ex with
  | Responded response => status_code response =? 403
  | RequestFailed => false
  end.

(** What the request loop returns on an exchange that ends it. *)
Definition answer {A} (ex : exchange A) : option A :=
  match ex_outcome ex with
  | Responded response =>
      if (400 <=? status_code response) && (status_code response <? 600)
      then None else json response
  | RequestFailed => None
  end.

(** ** What a run does, in the order it does it *)

Inductive event : Type :=
| EvFetchCommits (page : nat)                  (* [self.fetch_commits(page)] is called *)
| EvSkipped (commit_hash : string)             (* line 163, "already processed. Skipping..." *)
| EvSaveCommitFiles (commit_hash : string) (d : commit_detail)   (* line 177 *)
| EvProcessed (commit_hash : string)           (* line 211, "Processed commit" *)
| EvSaveProgress (infos : list commit_info) (processed : gset string)  (* line 219 *)
| EvSleep (seconds : Q).                       (* line 221 *)

(** A computation that logs events and then returns, raises or is cut off. *)
Record io (A : Type) : Type := mk_io {
  io_log : list event;
  io_res : res A
}.

Arguments mk_io {A}.
Arguments io_log {A}.
Arguments io_res {A}.

#[export] Instance io_ret : MRet io := fun A a => mk_io [] (Ret a).

#[export] Instance io_bind : MBind io := fun A B f m =>
  match io_res m with
  | Ret a => mk_io (io_log m ++ io_log (f a)) (io_res (f a))
  | Raise e => mk_io (io_log m) (Raise e)
  | OutOfFuel => mk_io (io_log m) OutOfFuel
  end.

Definition emit (evs : list event) : io unit := mk_io evs (Ret tt).

Definition lift {A} (r : res A) : io A := mk_io [] r.

(** A future of the thread pool: not started, finished with the worker's
    result (or its exception), or already handed out by [as_completed]. *)
Inductive future : Type :=
| Pending
| Done (r : res (option commit_info))
| Collected.

#[export] Instance future_eq_dec : EqDecision future.
Proof. solve_decision. Defined.

(** The scheduler's choices while a page is processed: worker [i] runs
    [process_commit], or the control thread takes future [i] out of
    [as_completed]. *)
Inductive sched_event : Type :=
| Run (i : nat)
| Collect (i : nat).

Record page_state : Type := mk_page {
  ps_self : fetcher;
  ps_futures : list future
}.

(** ** The progress file *)

Definition quote_char : ascii := "034"%char.
Definition backslash_char : ascii := "092"%char.

Definition hex_digit (n : nat) : ascii :=
  nth n (list_ascii_of_string "0123456789abcdef") "0"%char.

(** One character as [json.dump] writes it inside a string ([ensure_ascii]
    is on): the quote, the backslash and the control characters with a short
    form are escaped with a backslash, the other printable ASCII characters
    stand for themselves, and the rest is a \u escape. *)
Definition json_escape_char (c : ascii) : string :=
  let n := nat_of_ascii c in
  if (n =? 34)%nat then String backslash_char (String quote_char EmptyString)
  else if (n =? 92)%nat then String backslash_char (String backslash_char EmptyString)
  else if (n =? 8)%nat then String backslash_char "b"
  else if (n =? 12)%nat then String backslash_char "f"
  else if (n =? 10)%nat then String backslash_char "n"
  else if (n =? 13)%nat then String backslash_char "r"
  else if (n =? 9)%nat then String backslash_char "t"
  else if ((32 <=? n) && (n <=? 126))%nat then String c EmptyString
  else String backslash_char
         ("u00" +:+ String (hex_digit (n / 16)) (String (hex_digit (n mod 16)) EmptyString)).

Fixpoint json_escape (s : string) : string :=
  match s with
  | EmptyString => EmptyString
  | String c rest => json_escape_char c +:+ json_escape rest
  end.

Definition json_string (s : string) : string :=
  String quote_char (json_escape s +:+ String quote_char EmptyString).

(** The items of a JSON list or dict, joined by ", ". *)
Fixpoint json_join (items : list string) : string :=
  match items with
  | [] => EmptyString
  | [item] => item
  | item :: items' => item +:+ ", " +:+ json_join items'
  end.

Definition json_list (items : list string) : string :=
  "[" +:+ json_join items +:+ "]".

Definition json_member (key value : string) : string :=
  json_string key +:+ ": " +:+ value.

Definition json_dict (members : list string) : string :=
  "{" +:+ json_join members +:+ "}".

Definition json_commit_info (info : commit_info) : string :=
  json_dict [json_member "Commit URL" (json_string (Commit_URL info));
             json_member "Author Name" (json_string (Author_Name info));
             json_member "Author URL" (json_string (Author_URL info));
             json_member "Commit Date" (json_string (Commit_Date info));
             json_member "Commit Message" (json_string (Commit_Message info))].

(** The text [json.dump] writes at lines 84-90. [list(self.processed_commits)]
    lists the set in an order Python does not specify; here it is the order
    of [elements]. *)
Definition progress_json (self : fetcher) : string :=
  json_dict
    [json_member "commits_info" (json_list (json_commit_info <$> commits_info self));
     json_member "processed_commits"
       (json_list (json_string <$> elements (processed_commits self)))].

(** What happens to the progress file during [save_progress], lines 82-90:
    [open(self.progress_file, "w")] empties it, and the text that
    [json.dump] writes reaches it piece by piece, in the pieces the buffer
    of the file object is flushed in. *)
Inductive file_op : Type :=
| Truncate
| Append (chunk : string).

(** The progress file after an operation; [None] is no file. *)
Definition file_step (file : option string) (op : file_op) : option string :=
  match op with
  | Truncate => Some ""
  | Append chunk => Some (default "" file +:+ chunk)
  end.

Definition run_ops (ops : list file_op) (file : option string) : option string :=
  foldl file_step file ops.

Fixpoint concat_chunks (chunks : list string) : string :=
  match chunks with
  | [] => ""
  | chunk :: chunks' => chunk +:+ concat_chunks chunks'
  end.

(** The operations of a save whose text reaches the file in [chunks]. *)
Definition save_ops (chunks : list string) : list file_op :=
  Truncate :: (Append <$> chunks).

(** [chunks] is the text of [self], cut into pieces. *)
Definition chunks_of (self : fetcher) (chunks : list string) : Prop :=
  concat_chunks chunks = progress_json self.

(** The progress file that a process leaves behind when it stops after [k]
    operations of the save. *)
Definition save_progress_until (k : nat) (chunks : list string)
  (file : option string) : option string :=
  run_ops (take k (save_ops chunks)) file.

(** [save_progress(self)], lines 82-90, run to its end. *)
Definition save_progress (self : fetcher) (file : option string) : option string :=
  run_ops (save_ops [progress_json self]) file.

(** What [json.load] makes of the progress file: the two keys, each there
    or not. *)
Record progress_data : Type := mk_progress_data {
  pd_commits_info : option (list commit_info);
  pd_processed_commits : option (list string)
}.

(** [load_progress(self)], lines 73-80. [json_load] is [json.load] on the
    text of the file, [None] when it raises [JSONDecodeError], which is a
    [ValueError]. *)
Definition load_progress (json_load : string -> option progress_data)
  (self : fetcher) (file : option string) : res fetcher :=
  match file with
  | Some text =>
      progress_data ← of_option ValueError (json_load text);
      Ret (set_progress self
             (default [] (pd_commits_info progress_data))
             (list_to_set (default [] (pd_processed_commits progress_data))))
  | None => Ret (set_progress self (commits_info self) ∅)
  end.

(** ** Reading the progress file back *)

(** [json.load] on the texts that [save_progress] writes. The reader takes
    a text apart the way [json.dump] put it together, and returns what is
    left of the text with the value; it reads no other JSON text, so that
    it says what [json.load] returns where it returns something, and
    nothing where it does not. *)

Definition hex_value (c : ascii) : option nat :=
  let n := nat_of_ascii c in
  if ((48 <=? n) && (n <=? 57))%nat then Some (n - 48)%nat
  else if ((97 <=? n) && (n <=? 102))%nat then Some (n - 87)%nat
  else if ((65 <=? n) && (n <=? 70))%nat then Some (n - 55)%nat
  else None.

(** The character of a \u escape, when it is one below 256. *)
Definition unicode_escape (h1 h2 h3 h4 : ascii) : option ascii :=
  v1 ← hex_value h1; v2 ← hex_value h2; v3 ← hex_value h3; v4 ← hex_value h4;
  let n := (((v1 * 16 + v2) * 16 + v3) * 16 + v4)%nat in
  if (n <? 256)%nat then Some (ascii_of_nat n) else None.

(** The character of a short escape. *)
Definition short_escape (e : ascii) : option ascii :=
  let n := nat_of_ascii e in
  if (n =? 34)%nat then Some quote_char
  else if (n =? 92)%nat then Some backslash_char
  else if (n =? 47)%nat then Some "/"%char
  else if (n =? 98)%nat then Some (ascii_of_nat 8)
  else if (n =? 102)%nat then Some (ascii_of_nat 12)
  else if (n =? 110)%nat then Some (ascii_of_nat 10)
  else if (n =? 114)%nat then Some (ascii_of_nat 13)
  else if (n =? 116)%nat then Some (ascii_of_nat 9)
  else None.

Definition cons_char (c : ascii) (r : option (string * string))
  : option (string * string) :=
  match r with
  | Some (s, rest) => Some (String c s, rest)
  | None => None
  end.

(** The characters of a JSON string, up to and with its closing quote. A
    control character is not allowed to stand for itself. *)
Fixpoint read_chars (s : string) : option (string * string) :=
  match s with
  | EmptyString => None
  | String c rest =>
      if Ascii.eqb c quote_char then Some (EmptyString, rest)
      else if Ascii.eqb c backslash_char then
        match rest with
        | String e rest1 =>
            if Ascii.eqb e "u"%char then
              match rest1 with
              | String h1 (String h2 (String h3 (String h4 rest2))) =>
                  match unicode_escape h1 h2 h3 h4 with
                  | Some c' => cons_char c' (read_chars rest2)
                  | None => None
                  end
              | _ => None
              end
            else
              match short_escape e with
              | Some c' => cons_char c' (read_chars rest1)
              | None => None
              end
        | EmptyString => None
        end
      else if (32 <=? nat_of_ascii c)%nat then cons_char c (read_chars rest)
      else None
  end.

Definition read_string (s : string) : option (string * string) :=
  match s with
  | String c rest => if Ascii.eqb c quote_char then read_chars rest else None
  | EmptyString => None
  end.

(** [s] without the literal [lit] it starts with. *)
Fixpoint expect (lit s : string) : option string :=
  match lit, s with
  | EmptyString, _ => Some s
  | String a lit', String b s' => if Ascii.eqb a b then expect lit' s' else None
  | String _ _, EmptyString => None
  end.

(** The items of a list after its "[", up to and with its "]"; [fuel]
    bounds their number. *)
Fixpoint read_items {A} (read : string → option (A * string)) (fuel : nat)
  (s : string) : option (list A * string) :=
  match fuel with
  | O => None
  | S fuel' =>
      match read s with
      | Some (item, s1) =>
          match expect "]" s1 with
          | Some s2 => Some ([item], s2)
          | None =>
              match expect ", " s1 with
              | Some s2 =>
                  match read_items read fuel' s2 with
                  | Some (items, s3) => Some (item :: items, s3)
                  | None => None
                  end
              | None => None
              end
          end
      | None => None
      end
  end.

Definition read_list {A} (read : string → option (A * string)) (fuel : nat)
  (s : string) : option (list A * string) :=
  match expect "[" s with
  | Some s1 =>
      match expect "]" s1 with
      | Some s2 => Some ([], s2)
      | None => read_items read fuel s1
      end
  | None => None
  end.

(** A member of a dict whose value is a string. *)
Definition read_member (key : string) (s : string) : option (string * string) :=
  match expect (json_string key +:+ ": ") s with
  | Some s1 => read_string s1
  | None => None
  end.

(** A record of [commits_info], with its five keys in the order of lines
    179-185. *)
Definition read_commit_info (s : string) : option (commit_info * string) :=
  s ← expect "{" s;
  '(commit_url, s) ← read_member "Commit URL" s;
  s ← expect ", " s;
  '(author_name, s) ← read_member "Author Name" s;
  s ← expect ", " s;
  '(author_url, s) ← read_member "Author URL" s;
  s ← expect ", " s;
  '(commit_date, s) ← read_member "Commit Date" s;
  s ← expect ", " s;
  '(commit_message, s) ← read_member "Commit Message" s;
  s ← expect "}" s;
  Some (mk_info commit_url author_name author_url commit_date commit_message, s).

Definition read_progress (fuel : nat) (text : string)
  : option (progress_data * string) :=
  s ← expect ("{" +:+ json_string "commits_info" +:+ ": ") text;
  '(infos, s) ← read_list read_commit_info fuel s;
  s ← expect (", " +:+ json_string "processed_commits" +:+ ": ") s;
  '(ids, s) ← read_list read_string fuel s;
  s ← expect "}" s;
  Some (mk_progress_data (Some infos) (Some ids), s).

(** What [json.load] makes of a progress file that [save_progress] wrote. *)
Definition read_progress_file (text : string) : option progress_data :=
  match read_progress (String.length text) text with
  | Some (data, EmptyString) => Some data
  | _ => None
  end.


(** ** More strings *)

(** ["/".join(pieces)] *)
Fixpoint join_slash (pieces : list string) : string :=
  match pieces with
  | [] => EmptyString
  | [piece] => piece
  | piece :: pieces' => piece +:+ "/" +:+ join_slash pieces'
  end.

(** The string holds no "/". *)
Fixpoint no_slash (s : string) : bool :=
  match s with
  | EmptyString => true
  | String c rest => negb (Ascii.eqb c "/"%char) && no_slash rest
  end.

(** The string holds no "_". *)
Fixpoint no_underscore (s : string) : bool :=
  match s with
  | EmptyString => true
  | String c rest => negb (Ascii.eqb c "_"%char) && no_underscore rest
  end.

(** [s.replace("/", "_")], line 153. *)
Fixpoint replace_slash (s : string) : string :=
  match s with
  | EmptyString => EmptyString
  | String c rest =>
      String (if Ascii.eqb c "/"%char then "_"%char else c) (replace_slash rest)
  end.

(** ** The constructor and the names it gives *)

(** Lines 42-44. *)
Definition commits_url (self : fetcher) : string :=
  "https://api.github.com/repos/" +:+ repo_owner self +:+ "/" +:+ repo_name self
    +:+ "/commits".

(** Line 55. *)
Definition commit_content_dir (self : fetcher) : string :=
  repo_owner self +:+ "_" +:+ repo_name self +:+ "_commit_contents".

(** Line 56. *)
Definition progress_file (self : fetcher) : string :=
  repo_owner self +:+ "_" +:+ repo_name self +:+ "_progress.json".

(** An optional str is truthy when it is there and not empty. *)
Definition truthy (o : option string) : bool :=
  match o with
  | Some s => negb (String.eqb s "")
  | None => false
  end.

(** [__init__], lines 28-58, on the files [fs] (a path to its text):
    [github_token] is the argument, [env_token] what
    [os.getenv("GITHUB_ACCESS_TOKEN")] gives. It returns the token of the
    Authorization header and the fetcher, with the progress loaded. *)
Definition init (json_load : string -> option progress_data)
  (fs : gmap string string) (repo_owner repo_name : string) (per_page : nat)
  (commit_hash_end : option string) (save_files : bool)
  (github_token env_token : option string) : res (string * fetcher) :=
  let token := if truthy github_token then github_token else env_token in
  if truthy token then
    let self :=
      mk_fetcher repo_owner repo_name per_page commit_hash_end save_files [] ∅ in
    self' ← load_progress json_load self (fs !! progress_file self);
    Ret (default "" token, self')
  else Raise ValueError.

(** [save_progress] on the files: the text goes to [self.progress_file]. *)
Definition save_progress_at (self : fetcher) (fs : gmap string string)
  : gmap string string :=
  match save_progress self (fs !! progress_file self) with
  | Some text => <[progress_file self := text]> fs
  | None => delete (progress_file self) fs
  end.

(** ** The paths of the file dump *)

Definition starts_with_slash (s : string) : bool :=
  match s with
  | String c _ => Ascii.eqb c "/"%char
  | EmptyString => false
  end.

Fixpoint ends_with_slash (s : string) : bool :=
  match s with
  | EmptyString => false
  | String c EmptyString => Ascii.eqb c "/"%char
  | String _ rest => ends_with_slash rest
  end.

(** [os.path.join(a, b)] on POSIX: an absolute [b] stands alone, and no
    second "/" is put after an [a] that is empty or ends in one. *)
Definition path_join (a b : string) : string :=
  if starts_with_slash b then b
  else if String.eqb a "" || ends_with_slash a then a +:+ b
  else a +:+ "/" +:+ b.

(** What [path_join] puts between a directory and a relative name. *)
Definition separator (dir : string) : string :=
  if String.eqb dir "" || ends_with_slash dir then "" else "/".

(** Lines 145-148: the directory of a commit, numbered by the records so
    far. *)
Definition commit_dir (self : fetcher) (commit_hash : string) : string :=
  path_join (commit_content_dir self)
    (repo_owner self +:+ "_" +:+ repo_name self +:+ "_"
       +:+ pretty (length (commits_info self) + 1)%nat +:+ "-" +:+ commit_hash).

(** Line 153: where the patch of a changed file goes. *)
Definition patch_path (self : fetcher) (commit_hash filename : string) : string :=
  path_join (commit_dir self commit_hash) (replace_slash filename).

(** Line 156: where the detail goes. *)
Definition commit_info_path (self : fetcher) (commit_hash : string) : string :=
  path_join (commit_dir self commit_hash) "commit_info.json".

(** ** Sample data *)

Module Sample.

Definition c_a : commit :=
  mk_commit "aaa" "https://api.github.com/repos/o/r/commits/aaa"
    "https://github.com/o/r/commit/aaa" "Ann" "2024-01-01T10:00:00Z" "first" None.

Definition c_b : commit :=
  mk_commit "bbb" "https://api.github.com/repos/o/r/commits/bbb"
    "https://github.com/o/r/commit/bbb" "Bob" "2024-01-02T10:00:00Z" "second"
    (Some "bob").

Definition c_c : commit :=
  mk_commit "ccc" "https://api.github.com/repos/o/r/commits/ccc"
    "https://github.com/o/r/commit/ccc" "Cyd" "2024-01-03T10:00:00Z" "third"
    (Some "cyd").

(** A fresh fetcher that stops at "bbb" and dumps files. *)
Definition fetcher0 : fetcher :=
  mk_fetcher "o" "r" 2 (Some "bbb") true [] ∅.

(** The same after one record. *)
Definition fetcher1 : fetcher :=
  set_progress fetcher0 [normalized c_a] {["aaa"]}.

(** A 403 with the quota spent, to be reset at epoch 100. *)
Definition limited {A} : response A :=
  mk_response 403
    (<["x-ratelimit-remaining" := "0"]> (<["x-ratelimit-reset" := "100"]> ∅))
    None.


(** A 403 with the quota spent, to be reset in a future too far to sleep
    until. *)
Definition limited_far {A} : response A :=
  mk_response 403
    (<["x-ratelimit-remaining" := "0"]>
       (<["x-ratelimit-reset" := "99999999999999999999"]> ∅))
    None.

(** A [time.sleep] that refuses a wait of more than 2^63 nanoseconds. *)
Definition py_sleep (sleep_time : Q) : option exn :=
  if Qle_bool sleep_time (9223372036854775807 # 1000000000) then None
  else Some OverflowError.

(** A 403 that says nothing of the quota. *)
Definition denied {A} : response A := mk_response 403 ∅ None.

Definition ok {A} (body : A) : response A := mk_response 200 ∅ (Some body).

(** Page 1 is first refused for quota and then lists [c_a]; page 2 lists
    [c_b] and [c_c]; there is nothing after it. *)
Definition listing (page k : nat) : exchange (list commit) :=
  match page, k with
  | 1%nat, O => mk_exchange (Responded limited) 40
  | 1%nat, _ => mk_exchange (Responded (ok [c_a])) 100
  | 2%nat, _ => mk_exchange (Responded (ok [c_b; c_c])) 200
  | _, _ => mk_exchange (Responded (ok [])) 300
  end.

(** The detail call fails for [c_a] and succeeds for the others. *)
Definition detail (commit_detail_url : string) (k : nat) : exchange commit_detail :=
  if String.eqb commit_detail_url (url c_a) then mk_exchange RequestFailed 0
  else mk_exchange (Responded (ok (mk_detail [("README.md", Some "+hello")]))) 0.

(** A listing that answers 403 forever, without a word on the quota. *)
Definition listing_denied (page k : nat) : exchange (list commit) :=
  mk_exchange (Responded denied) 0.

(** The scheduler takes the future of the second item first. *)
Definition sched (page : nat) : list sched_event :=
  [Run 0%nat; Run 1%nat; Collect 1%nat].

(** [fetcher1] after page 2 under [sched]. *)
Definition fetcher3 : fetcher :=
  set_progress fetcher0 [normalized c_a; normalized c_c; normalized c_b]
    (list_to_set ["aaa"; "ccc"; "bbb"]).


(** The text of the saved [fetcher1], in two pieces. *)
Definition chunks : list string :=
  let text := progress_json fetcher1 in
  [substring 0 20 text; substring 20 (String.length text - 20) text].

(** A fetcher that stops nowhere and dumps nothing. *)
Definition fetcher_quiet : fetcher :=
  mk_fetcher "o" "r" 2 None false [] ∅.

(** [fetcher_quiet] after the whole sample listing under [sched]. *)
Definition fetcher_quiet3 : fetcher :=
  set_progress fetcher_quiet [normalized c_a; normalized c_c; normalized c_b]
    (list_to_set ["aaa"; "ccc"; "bbb"]).

End Sample.

Section Fetcher.

(** Python's builtin [int] on a [str]; [None] is [ValueError]. *)
Variable py_int : string -> option Z.

(** [time.sleep] on a positive duration: [None] when it sleeps, the
    exception when it raises ([OverflowError] for a duration that does not
    fit the platform's timestamp, [OSError] when the system call refuses
    it). *)
Variable py_sleep : Q -> option exn.

(** [time.sleep(sleep_time)], line 102. *)
Definition time_sleep (sleep_time : Q) : res unit :=
  match py_sleep sleep_time with
  | None => Ret tt
  | Some e => Raise e
  end.

(** [handle_rate_limit(self, response)], lines 92-104. *)
Definition handle_rate_limit {A} (response : response A) (now : Q)
  : res rate_limit_verdict :=
  if (status_code response =? 403)
     && bool_decide (is_Some (header response "X-RateLimit-Remaining"))
  then
    text ← of_option KeyError (header response "X-RateLimit-Remaining");
    remaining ← of_option ValueError (py_int text);
    if remaining =? 0 then
      text' ← of_option KeyError (header response "X-RateLimit-Reset");
      reset_time ← of_option ValueError (py_int text');
      reset_float ← float_of_int reset_time;
      let sleep_time := (reset_float - now)%Q in
      if Qlt_le_dec 0 sleep_time
      then
        _ ← time_sleep sleep_time;
        Ret (mk_verdict true (Some sleep_time))
      else Ret (mk_verdict true None)
    else Ret (mk_verdict false None)
  else Ret (mk_verdict false None).

(** [response.raise_for_status()] raises [HTTPError] on 4xx and 5xx. *)
Definition raises_for_status {A} (response : response A) : bool :=
  (400 <=? status_code response) && (status_code response <? 600).

(** The [while True] loop shared, word for word, by [fetch_commits]
    (lines 108-124) and [fetch_commit_details] (lines 128-142): [http k] is
    the k-th [session.get] of this call. An exception of
    [handle_rate_limit] is no [RequestException] and leaves the loop; a body
    that does not decode makes [response.json()] raise requests'
    [JSONDecodeError], which is one and no [HTTPError]: the call returns
    [None]. *)
Fixpoint request_loop {A} (fuel : nat) (http : nat -> exchange A) (k : nat)
  : res (option A) :=
  match fuel with
  | O => OutOfFuel
  | S fuel' =>
      match ex_outcome (http k) with
      | RequestFailed => Ret None
      | Responded response =>
          verdict ← handle_rate_limit response (ex_clock (http k));
          if retry verdict then request_loop fuel' http (S k)
          else if raises_for_status response then
            if status_code response =? 403
            then request_loop fuel' http (S k)
            else Ret None
          else Ret (json response)
      end
  end.

(** The oracle: the exchanges of the listing call for a page, and of the
    detail call for a detail URL. *)
Variable listing_http : nat -> nat -> exchange (list commit).
Variable detail_http : string -> nat -> exchange commit_detail.

(** The solvers look at every hypothesis: the oracle is put out of their
    sight where the goal does not speak of it. *)
Ltac forget_oracle :=
  try clear listing_http; try clear detail_http; try clear py_int;
  try clear py_sleep.

Ltac solve_set := forget_oracle; set_solver.

(** [fetch_commits(self, page)], lines 106-124. *)
Definition fetch_commits (fuel : nat) (page : nat) : res (option (list commit)) :=
  request_loop fuel (listing_http page) 0.

(** [fetch_commit_details(self, commit)], lines 126-142. *)
Definition fetch_commit_details (fuel : nat) (commit : commit)
  : res (option commit_detail) :=
  let commit_detail_url := url commit in
  request_loop fuel (detail_http commit_detail_url) 0.

(** [process_commit(self, commit)], lines 160-186. [save_commit_files] is
    an event: what it writes is outside the harvest's state. *)
Definition process_commit (fuel : nat) (self : fetcher) (commit : commit)
  : io (option commit_info) :=
  let commit_hash := sha commit in
  if bool_decide (commit_hash ∈ processed_commits self) then
    _ ← emit [EvSkipped commit_hash];
    mret None
  else
    let commit_url := html_url commit in
    let author_name := author_name commit in
    let author_url :=
      match author commit with
      | Some login => "https://github.com/" +:+ login
      | None => "N/A"
      end in
    let commit_date := author_date commit in
    let commit_message := message commit in
    commit_detail_data ← lift (fetch_commit_details fuel commit);
    _ ← match commit_detail_data with
        | Some d =>
            if save_files self then emit [EvSaveCommitFiles commit_hash d]
            else mret tt
        | None => mret tt
        end;
    mret (Some {| Commit_URL := commit_url;
                  Author_Name := author_name;
                  Author_URL := author_url;
                  Commit_Date := commit_date;
                  Commit_Message := commit_message |}).

(** The body of the [for future in as_completed(futures)] loop, lines
    206-211, on a worker's result. *)
Definition merge_result (commit_info : option commit_info) (self : fetcher)
  : io fetcher :=
  match commit_info with
  | Some info =>
      let commit_hash := last_segment (Commit_URL info) in
      _ ← emit [EvProcessed commit_hash];
      mret (set_progress self (commits_info self ++ [info])
              ({[commit_hash]} ∪ processed_commits self))
  | None => mret self
  end.

(** One choice of the scheduler. A choice that is not possible (a worker
    that already ran, a future that is not finished) does nothing. The
    worker reads [processed_commits] once, at line 162, so that its whole
    run is placed at that moment; [future.result()] raises what the worker
    raised, and the page ends there. *)
Definition sched_step (fuel : nat) (commits_data : list commit)
  (ev : sched_event) (ps : page_state) : io page_state :=
  match ev with
  | Run i =>
      match commits_data !! i, ps_futures ps !! i with
      | Some commit, Some Pending =>
          let worker := process_commit fuel (ps_self ps) commit in
          mk_io (io_log worker)
            (Ret (mk_page (ps_self ps) (<[i := Done (io_res worker)]> (ps_futures ps))))
      | _, _ => mret ps
      end
  | Collect i =>
      match ps_futures ps !! i with
      | Some (Done r) =>
          commit_info ← lift r;
          self' ← merge_result commit_info (ps_self ps);
          mret (mk_page self' (<[i := Collected]> (ps_futures ps)))
      | _ => mret ps
      end
  end.

Fixpoint run_schedule (fuel : nat) (commits_data : list commit)
  (sched : list sched_event) (ps : page_state) : io page_state :=
  match sched with
  | [] => mret ps
  | ev :: sched' =>
      ps' ← sched_step fuel commits_data ev ps;
      run_schedule fuel commits_data sched' ps'
  end.

(** Lines 200-211: every item is submitted, the scheduler has its way, and
    leaving the [with] block and the [for] loop means that every worker has
    run and every future was taken: what [sched] left undone is done in
    index order. *)
Definition run_page (fuel : nat) (sched : list sched_event)
  (commits_data : list commit) (self : fetcher) : io fetcher :=
  let n := length commits_data in
  ps ← run_schedule fuel commits_data
         (sched ++ (Run <$> seq 0 n) ++ (Collect <$> seq 0 n))
         (mk_page self (replicate n Pending));
  mret (ps_self ps).

(** [if self.commit_hash_end and any(commit["sha"] == self.commit_hash_end ...)],
    lines 213-215; the empty string is falsy. *)
Definition stop_here (self : fetcher) (commits_data : list commit) : bool :=
  match commit_hash_end self with
  | Some e =>
      negb (String.eqb e "") && existsb (fun commit => String.eqb (sha commit) e) commits_data
  | None => false
  end.

(** [save_progress] as the run sees it: the progress written at this point. *)
Definition save_progress_event (self : fetcher) : event :=
  EvSaveProgress (commits_info self) (processed_commits self).

(** The [while not all_commits_fetched] loop of [process_commits], lines
    195-221; [n] bounds the number of pages, [sched page] is the scheduler
    during that page. *)
Fixpoint process_commits_loop (n fuel : nat) (sched : nat -> list sched_event)
  (page : nat) (self : fetcher) : io fetcher :=
  match n with
  | O => lift OutOfFuel
  | S n' =>
      _ ← emit [EvFetchCommits page];
      commits_data ← lift (fetch_commits fuel page);
      match commits_data with
      | None | Some [] => mret self
      | Some commits_data =>
          self' ← run_page fuel (sched page) commits_data self;
          let all_commits_fetched := stop_here self' commits_data in
          _ ← emit [save_progress_event self'; EvSleep 6];
          if all_commits_fetched then mret self'
          else process_commits_loop n' fuel sched (S page) self'
      end
  end.

(** [process_commits(self)], lines 188-223. *)
Definition process_commits (n fuel : nat) (sched : nat -> list sched_event)
  (self : fetcher) : io fetcher :=
  process_commits_loop n fuel sched 1%nat self.

(** ** The notions the statements use *)




(** The events of a worker that got [data] from the detail call. *)
Definition dump_events (self : fetcher) (commit : commit)
  (data : option commit_detail) : list event :=
  match data with
  | Some d => if save_files self then [EvSaveCommitFiles (sha commit) d] else []
  | None => []
  end.

(** The events of the workers and of the merge. *)
Definition worker_event (ev : event) : Prop :=
  match ev with
  | EvSkipped _ | EvSaveCommitFiles _ _ | EvProcessed _ => True
  | _ => False
  end.

(** [self'] is [self] with records appended and their identifiers added. *)
Definition extends (self self' : fetcher) : Prop :=
  ∃ new,
    self' = set_progress self (commits_info self ++ new)
              (list_to_set (ident <$> new) ∪ processed_commits self).

(** How far a future has come: 0 not started, 1 finished, 2 taken. *)
Definition rank_at (ps : page_state) (i : nat) : nat :=
  match ps_futures ps !! i with
  | Some Pending | None => 0
  | Some (Done _) => 1
  | Some Collected => 2
  end.

(** The item was skipped as already processed, or its record was merged. *)
Definition accounted (lg : list event) (self : fetcher) (commit : commit) : Prop :=
  EvSkipped (sha commit) ∈ lg ∨
  (EvProcessed (ident (normalized commit)) ∈ lg ∧
   normalized commit ∈ commits_info self ∧
   ident (normalized commit) ∈ processed_commits self).

(** What is known of the item behind a future. *)
Definition slot_ok (lg : list event) (self : fetcher) (commit : commit)
  (f : option future) : Prop :=
  match f with
  | Some Pending => True
  | Some (Done (Ret None)) => EvSkipped (sha commit) ∈ lg
  | Some (Done (Ret (Some info))) => info = normalized commit
  | Some (Done _) => True
  | Some Collected => accounted lg self commit
  | None => False
  end.

Definition page_inv (cs : list commit) (self0 : fetcher) (lg : list event)
  (ps : page_state) : Prop :=
  extends self0 (ps_self ps) ∧
  ∀ i commit, cs !! i = Some commit → slot_ok lg (ps_self ps) commit (ps_futures ps !! i).

(** Every detail call of the page returns, with data or without. *)
Definition workers_return (fuel : nat) (cs : list commit) : Prop :=
  ∀ commit, commit ∈ cs → ∃ data, fetch_commit_details fuel commit = Ret data.

(** No finished future holds an exception or a worker that was cut off. *)
Definition futures_returned (ps : page_state) : Prop :=
  ∀ i r, ps_futures ps !! i = Some (Done r) → ∃ v, r = Ret v.

(** No orphans: an identifier is in [processed_commits] exactly when some
    record of [commits_info] is filed under it. *)
Definition no_orphans (self : fetcher) : Prop :=
  ∀ id, id ∈ processed_commits self ↔
        ∃ info, info ∈ commits_info self ∧ ident info = id.

(** No two records of [commits_info] are filed under one identifier. *)
Definition one_record_each (self : fetcher) : Prop :=
  NoDup (ident <$> commits_info self).

(** The page's items have distinct shas, and each html_url ends in its sha. *)
Definition page_distinct (cs : list commit) : Prop :=
  NoDup (sha <$> cs) ∧ ∀ commit, commit ∈ cs → last_segment (html_url commit) = sha commit.

Definition bijection_inv (cs : list commit) (ps : page_state) : Prop :=
  no_orphans (ps_self ps) ∧ one_record_each (ps_self ps) ∧
  ∀ i r, ps_futures ps !! i = Some (Done r) →
    ∃ commit, cs !! i = Some commit ∧
      ∀ info, r = Ret (Some info) →
        info = normalized commit ∧ sha commit ∉ processed_commits (ps_self ps).

(** The pages [fetch_commits] was called for, in the order of the calls. *)
Definition fetched_pages (lg : list event) : list nat :=
  omap (λ ev, match ev with EvFetchCommits page => Some page | _ => None end) lg.

(** The item is done in the progress [infos], [processed]: its record was
    merged, so that [infos] holds it and [processed] its identifier; or it
    was skipped as already processed, and [processed] holds its sha. *)
Definition item_done (lg : list event) (infos : list commit_info)
  (processed : gset string) (commit : commit) : Prop :=
  (EvSkipped (sha commit) ∈ lg ∧ sha commit ∈ processed) ∨
  (EvProcessed (ident (normalized commit)) ∈ lg ∧
   normalized commit ∈ infos ∧
   ident (normalized commit) ∈ processed).



(** The checkpoint of a page: the page was listed, its items were
    processed, and [save_progress] wrote a progress in which every one of
    them is done, in this order and as the last thing before [pre] ends. *)
Definition checkpointed (fuel : nat) (pre : list event) (m : nat) : Prop :=
  ∃ before work cs infos processed,
    pre = before ++ EvFetchCommits m :: work
            ++ [EvSaveProgress infos processed; EvSleep 6] ∧
    Forall worker_event work ∧
    fetch_commits fuel m = Ret (Some cs) ∧
    ∀ commit, commit ∈ cs → item_done work infos processed commit.

(** An exchange after which the request loop goes round again: a 403 on
    which [handle_rate_limit] returns (true for a spent quota; false
    otherwise, and then [raise_for_status] raises). *)
Definition goes_round {A} (ex : exchange A) : Prop :=
  forbidden ex = true ∧
  ∀ response, ex_outcome ex = Responded response →
    ∃ verdict, handle_rate_limit response (ex_clock ex) = Ret verdict.

(** What [handle_rate_limit] raises on an exchange, if it raises. *)
Definition raises_on {A} (ex : exchange A) (e : exn) : Prop :=
  ∃ response, ex_outcome ex = Responded response ∧
              handle_rate_limit response (ex_clock ex) = Raise e.



(** The identifiers the log reports, as skipped or as processed, are in
    [processed_commits]. *)
Definition reported_in (lg : list event) (self : fetcher) : Prop :=
  ∀ s, EvSkipped s ∈ lg ∨ EvProcessed s ∈ lg → s ∈ processed_commits self.

(** The item is already processed. *)
Definition already_processed (self : fetcher) (commit : commit) : Prop :=
  sha commit ∈ processed_commits self.

(** The event reports an item of the page as skipped. *)
Definition skips_item (cs : list commit) (ev : event) : Prop :=
  ∃ commit, commit ∈ cs ∧ ev = EvSkipped (sha commit).

(** The stop identifier is not configured: [None], or the empty string,
    which is falsy. *)
Definition no_stop_identifier (self : fetcher) : Prop :=
  commit_hash_end self = None ∨ commit_hash_end self = Some "".

(** The listing of the page came back with items. *)
Definition page_listed (fuel page : nat) : Prop :=
  ∃ commit cs, fetch_commits fuel page = Ret (Some (commit :: cs)).

(** The listing of the page came back empty or with no data. *)
Definition page_ends_run (fuel page : nat) : Prop :=
  fetch_commits fuel page = Ret None ∨ fetch_commits fuel page = Ret (Some []).

(** Every item of every listing has an html_url that ends in its sha. *)
Definition urls_end_in_sha (fuel : nat) : Prop :=
  ∀ page cs, fetch_commits fuel page = Ret (Some cs) →
    ∀ commit, commit ∈ cs → last_segment (html_url commit) = sha commit.

(** The event neither reports a merge nor a file dump. *)
Definition quiet (ev : event) : Prop :=
  match ev with
  | EvProcessed _ | EvSaveCommitFiles _ _ => False
  | _ => True
  end.

(** The items of a page that are not yet processed when the page starts. *)
Definition fresh_items (self : fetcher) (cs : list commit) : list commit :=
  filter (λ commit, sha commit ∉ processed_commits self) cs.

(** Where the records of a page state come from: the progress the page
    started with, or an item of the page that was fresh then. *)
Definition records_from (cs : list commit) (self0 : fetcher) (ps : page_state) : Prop :=
  ∀ info, info ∈ commits_info (ps_self ps) →
    info ∈ commits_info self0 ∨
    ∃ commit, commit ∈ cs ∧ info = normalized commit ∧
              sha commit ∉ processed_commits self0.

(** Every page that is listed with items is a page of distinct items. *)
Definition pages_distinct (fuel : nat) : Prop :=
  ∀ page cs, fetch_commits fuel page = Ret (Some cs) → page_distinct cs.

(** The listing call of the page returns, and so do the detail calls of
    the items it lists. *)
Definition page_responds (fuel page : nat) : Prop :=
  ∃ data, fetch_commits fuel page = Ret data ∧
          ∀ cs, data = Some cs → workers_return fuel cs.

(** ** The rate-limit check *)

Lemma handle_rate_limit_not_403 {A} (response : response A) now :
  status_code response ≠ 403 →
  handle_rate_limit response now = Ret (mk_verdict false None).
Proof.
  intros Hne. unfold handle_rate_limit.
  destruct (Z.eqb_spec (status_code response) 403) as [Heq | _]; [by destruct Hne |].
  reflexivity.
Qed.

Lemma handle_rate_limit_no_header {A} (response : response A) now :
  header response "X-RateLimit-Remaining" = None →
  handle_rate_limit response now = Ret (mk_verdict false None).
Proof.
  intros Hno. unfold handle_rate_limit. rewrite Hno.
  rewrite bool_decide_eq_false_2; [| by intros [? ?]].
  by rewrite andb_false_r.
Qed.

Lemma handle_rate_limit_nonzero {A} (response : response A) now text remaining :
  header response "X-RateLimit-Remaining" = Some text →
  py_int text = Some remaining → remaining ≠ 0 →
  handle_rate_limit response now = Ret (mk_verdict false None).
Proof.
  intros Hh Hp Hne. unfold handle_rate_limit. rewrite Hh.
  destruct (_ && _); [| done]. simpl. rewrite Hp. simpl.
  destruct (Z.eqb_spec remaining 0); [done | reflexivity].
Qed.

(** The check on a 403 that carries the remaining-quota header, branch by
    branch. *)
Lemma handle_rate_limit_403 {A} (response : response A) now text :
  status_code response = 403 →
  header response "X-RateLimit-Remaining" = Some text →
  handle_rate_limit response now =
  match py_int text with
  | None => Raise ValueError
  | Some remaining =>
      if remaining =? 0 then
        match header response "X-RateLimit-Reset" with
        | None => Raise KeyError
        | Some text' =>
            match py_int text' with
            | None => Raise ValueError
            | Some reset_time =>
                if Z.abs reset_time <? float_limit then
                  if Qlt_le_dec 0 (inject_Z reset_time - now) then
                    match py_sleep (inject_Z reset_time - now) with
                    | None => Ret (mk_verdict true (Some (inject_Z reset_time - now)%Q))
                    | Some e => Raise e
                    end
                  else Ret (mk_verdict true None)
                else Raise OverflowError
            end
        end
      else Ret (mk_verdict false None)
  end.
Proof.
  intros Hs Hh. unfold handle_rate_limit. rewrite Hs, Hh.
  rewrite bool_decide_eq_true_2 by (by eexists). simpl.
  destruct (py_int text) as [remaining |]; [| done]. simpl.
  destruct (remaining =? 0); [| done].
  destruct (header response "X-RateLimit-Reset") as [text' |]; [| done]. simpl.
  destruct (py_int text') as [reset_time |]; [| done]. simpl.
  unfold float_of_int. destruct (Z.abs reset_time <? float_limit); [| done]. simpl.
  destruct (Qlt_le_dec _ _); [| done].
  unfold time_sleep. by destruct (py_sleep _).
Qed.

Lemma handle_rate_limit_exhausted {A} (response : response A) now text text' reset_time :
  status_code response = 403 →
  header response "X-RateLimit-Remaining" = Some text → py_int text = Some 0 →
  header response "X-RateLimit-Reset" = Some text' → py_int text' = Some reset_time →
  Z.abs reset_time < float_limit →
  ((0 < inject_Z reset_time - now)%Q → py_sleep (inject_Z reset_time - now) = None) →
  handle_rate_limit response now =
    Ret (mk_verdict true
           (if Qlt_le_dec 0 (inject_Z reset_time - now)
            then Some (inject_Z reset_time - now)%Q else None)).
Proof.
  intros Hs Hh Hp Hh' Hp' Hfloat Hsleep.
  rewrite (handle_rate_limit_403 response now text Hs Hh), Hp. simpl.
  rewrite Hh', Hp'.
  destruct (Z.ltb_spec (Z.abs reset_time) float_limit) as [_ | Hge]; [| lia].
  destruct (Qlt_le_dec _ _) as [Hlt | _]; [| done].
  by rewrite (Hsleep Hlt).
Qed.



(** ** The request loops *)

Lemma request_loop_round {A} (http : nat → exchange A) fuel k :
  goes_round (http k) →
  request_loop (S fuel) http k = request_loop fuel http (S k).
Proof.
  intros [Hf Hret]. unfold forbidden in Hf. simpl.
  destruct (ex_outcome (http k)) as [response |] eqn:Ho; [| done].
  destruct (Hret response eq_refl) as [verdict Hv].
  rewrite Hv. simpl. destruct (retry verdict); [done |].
  unfold raises_for_status. rewrite Hf.
  apply Z.eqb_eq in Hf. rewrite Hf. reflexivity.
Qed.

Lemma request_loop_ends {A} (http : nat → exchange A) fuel k :
  forbidden (http k) = false →
  request_loop (S fuel) http k = Ret (answer (http k)).
Proof.
  intros Hf. unfold forbidden, answer in *. simpl.
  destruct (ex_outcome (http k)) as [response |] eqn:Ho; [| done].
  apply Z.eqb_neq in Hf.
  rewrite handle_rate_limit_not_403 by done. simpl.
  unfold raises_for_status.
  destruct (_ && _); [| done].
  by destruct (Z.eqb_spec (status_code response) 403).
Qed.

Lemma request_loop_raises {A} (http : nat → exchange A) fuel k e :
  raises_on (http k) e → request_loop (S fuel) http k = Raise e.
Proof. intros (response & Ho & Hr). simpl. by rewrite Ho, Hr. Qed.

Lemma handle_rate_limit_ends {A} (response : response A) now :
  handle_rate_limit response now ≠ OutOfFuel.
Proof.
  destruct (decide (status_code response = 403)) as [Hs | Hs];
    [| by rewrite handle_rate_limit_not_403].
  destruct (header response "X-RateLimit-Remaining") as [text |] eqn:Hh;
    [| by rewrite handle_rate_limit_no_header].
  rewrite (handle_rate_limit_403 response now text Hs Hh).
  destruct (py_int text) as [remaining |]; [| done].
  destruct (remaining =? 0); [| done].
  destruct (header response "X-RateLimit-Reset") as [text' |]; [| done].
  destruct (py_int text') as [reset_time |]; [| done].
  destruct (Z.abs reset_time <? float_limit); [| done].
  destruct (Qlt_le_dec _ _); [| done].
  by destruct (py_sleep _).
Qed.

(** An exchange makes the loop go round, makes it raise, or ends it. *)
Lemma request_loop_step_cases {A} (http : nat → exchange A) k :
  goes_round (http k) ∨ (∃ e, raises_on (http k) e) ∨ forbidden (http k) = false.
Proof.
  unfold goes_round, raises_on, forbidden.
  destruct (ex_outcome (http k)) as [response |] eqn:Ho; [| by right; right].
  destruct (status_code response =? 403) eqn:Hs; [| by right; right].
  destruct (handle_rate_limit response (ex_clock (http k))) as [verdict | e |] eqn:Hv.
  - left. split; [done |]. intros ? [= <-]. by exists verdict.
  - right. left. exists e, response. done.
  - by apply handle_rate_limit_ends in Hv.
Qed.

Lemma raises_on_not_round {A} (ex : exchange A) e : raises_on ex e → ¬ goes_round ex.
Proof.
  intros (response & Ho & Hr) [_ Hret]. destruct (Hret response Ho) as [verdict Hv].
  congruence.
Qed.

Lemma raises_on_forbidden {A} (ex : exchange A) e : raises_on ex e → forbidden ex = true.
Proof.
  intros (response & Ho & Hr). unfold forbidden. rewrite Ho.
  destruct (Z.eqb_spec (status_code response) 403) as [Hs | Hs]; [done |].
  by rewrite handle_rate_limit_not_403 in Hr.
Qed.

Lemma request_loop_returns_iff {A} (http : nat → exchange A) fuel k data :
  request_loop fuel http k = Ret data ↔
  ∃ m, (m < fuel)%nat ∧
       (∀ j, (j < m)%nat → goes_round (http (k + j)%nat)) ∧
       forbidden (http (k + m)%nat) = false ∧
       data = answer (http (k + m)%nat).
Proof.
  revert k. induction fuel as [| fuel IH]; intros k.
  - split; [done | intros (m & Hm & _); lia].
  - destruct (request_loop_step_cases http k) as [Hround | [[e' Hraise] | Hend]].
    + rewrite request_loop_round by done. rewrite IH. split.
      * intros (m & Hm & Hbefore & Hend & ->). exists (S m).
        split; [lia |]. split; [| by rewrite <- Nat.add_succ_comm].
        intros [| j] Hj; [by rewrite Nat.add_0_r |].
        rewrite <- Nat.add_succ_comm. apply Hbefore. lia.
      * intros ([| m] & Hm & Hbefore & Hend & ->).
        { rewrite Nat.add_0_r in Hend. destruct Hround as [Hf _]. congruence. }
        exists m. split; [lia |]. rewrite <- !Nat.add_succ_comm in *.
        split; [| done]. intros j Hj.
        specialize (Hbefore (S j)). rewrite <- Nat.add_succ_comm in Hbefore.
        apply Hbefore. lia.
    + rewrite (request_loop_raises http fuel k e') by done. split; [done |].
      intros ([| m] & Hm & Hbefore & Hend & _).
      * rewrite Nat.add_0_r in Hend. apply raises_on_forbidden in Hraise. congruence.
      * specialize (Hbefore 0%nat). rewrite Nat.add_0_r in Hbefore.
        exfalso. apply (raises_on_not_round _ _ Hraise). apply Hbefore. lia.
    + rewrite request_loop_ends by done. split.
      * intros [= <-]. exists 0%nat. rewrite Nat.add_0_r.
        split; [lia |]. split; [intros; lia | done].
      * intros ([| m] & Hm & Hbefore & Hend' & ->); [by rewrite Nat.add_0_r |].
        specialize (Hbefore 0%nat). rewrite Nat.add_0_r in Hbefore.
        destruct Hbefore as [Hf _]; [lia | congruence].
Qed.

Lemma request_loop_round_forever {A} (http : nat → exchange A) fuel k :
  (∀ j, goes_round (http j)) → request_loop fuel http k = OutOfFuel.
Proof.
  intros Hall. revert k. induction fuel as [| fuel IH]; intros k; [done |].
  rewrite request_loop_round by done. apply IH.
Qed.

Lemma request_loop_raises_iff {A} (http : nat → exchange A) fuel k e :
  request_loop fuel http k = Raise e ↔
  ∃ m, (m < fuel)%nat ∧
       (∀ j, (j < m)%nat → goes_round (http (k + j)%nat)) ∧
       raises_on (http (k + m)%nat) e.
Proof.
  revert k. induction fuel as [| fuel IH]; intros k.
  - split; [done | intros (m & Hm & _); lia].
  - destruct (request_loop_step_cases http k) as [Hround | [[e' Hraise] | Hend]].
    + rewrite request_loop_round by done. rewrite IH. split.
      * intros (m & Hm & Hbefore & Hlast). exists (S m).
        split; [lia |]. split; [| by rewrite <- Nat.add_succ_comm].
        intros [| j] Hj; [by rewrite Nat.add_0_r |].
        rewrite <- Nat.add_succ_comm. apply Hbefore. lia.
      * intros ([| m] & Hm & Hbefore & Hlast).
        { rewrite Nat.add_0_r in Hlast. by apply raises_on_not_round in Hlast. }
        exists m. split; [lia |]. rewrite <- Nat.add_succ_comm in Hlast.
        split; [| done]. intros j Hj.
        specialize (Hbefore (S j)). rewrite <- Nat.add_succ_comm in Hbefore.
        apply Hbefore. lia.
    + rewrite (request_loop_raises http fuel k e') by done. split.
      * intros [= <-]. exists 0%nat. rewrite Nat.add_0_r.
        split; [lia |]. split; [intros; lia | done].
      * intros ([| m] & Hm & Hbefore & Hlast).
        -- rewrite Nat.add_0_r in Hlast.
           destruct Hraise as (r1 & Ho1 & Hr1), Hlast as (r2 & Ho2 & Hr2). congruence.
        -- specialize (Hbefore 0%nat). rewrite Nat.add_0_r in Hbefore.
           exfalso. apply (raises_on_not_round _ _ Hraise). apply Hbefore. lia.
    + rewrite request_loop_ends by done. split; [done |].
      intros ([| m] & Hm & Hbefore & Hlast).
      * rewrite Nat.add_0_r in Hlast. apply raises_on_forbidden in Hlast. congruence.
      * specialize (Hbefore 0%nat). rewrite Nat.add_0_r in Hbefore.
        destruct Hbefore as [Hf _]; [lia | congruence].
Qed.

(** C9, as the code has it. [fetch_commits] does not return on every
    response sequence. After every 403 on which [handle_rate_limit] returns
    (true for a spent quota; false otherwise, and then the [HTTPError] of
    [raise_for_status] is caught and its status is 403) it issues the
    request again. It returns exactly when such a run of 403s is followed by
    an exchange that is not a 403: with no data when that request failed or
    was answered 4xx or 5xx, and with the decoded body otherwise. It raises
    exactly when the run is followed by a 403 on which [handle_rate_limit]
    raises. On a persistent 403 no amount of fuel makes it return. *)
Theorem fetch_commits_returns_iff (page : nat) :
  (∀ fuel data,
     fetch_commits fuel page = Ret data ↔
     ∃ k, (k < fuel)%nat ∧
          (∀ j, (j < k)%nat → goes_round (listing_http page j)) ∧
          forbidden (listing_http page k) = false ∧
          data = answer (listing_http page k)) ∧
  (∀ fuel e,
     fetch_commits fuel page = Raise e ↔
     ∃ k, (k < fuel)%nat ∧
          (∀ j, (j < k)%nat → goes_round (listing_http page j)) ∧
          raises_on (listing_http page k) e) ∧
  ((∀ k, goes_round (listing_http page k)) →
   ∀ fuel, fetch_commits fuel page = OutOfFuel).
Proof.
  split; [| split].
  - intros fuel data. unfold fetch_commits.
    by rewrite request_loop_returns_iff.
  - intros fuel e. unfold fetch_commits.
    by rewrite request_loop_raises_iff.
  - intros Hall fuel. unfold fetch_commits.
    by apply request_loop_round_forever.
Qed.

(** The detail call runs the same loop. *)
Lemma fetch_commit_details_returns_iff (commit : commit) fuel data :
  fetch_commit_details fuel commit = Ret data ↔
  ∃ k, (k < fuel)%nat ∧
       (∀ j, (j < k)%nat → goes_round (detail_http (url commit) j)) ∧
       forbidden (detail_http (url commit) k) = false ∧
       data = answer (detail_http (url commit) k).
Proof. unfold fetch_commit_details. by rewrite request_loop_returns_iff. Qed.

(** ** Logged computations *)

Lemma io_bind_log {A B} (m : io A) (f : A → io B) :
  io_log (m ≫= f) =
  io_log m ++ match io_res m with Ret a => io_log (f a) | _ => [] end.
Proof.
  unfold mbind, io_bind. destruct (io_res m); simpl; by rewrite ?app_nil_r.
Qed.

Lemma io_bind_res {A B} (m : io A) (f : A → io B) :
  io_res (m ≫= f) =
  match io_res m with
  | Ret a => io_res (f a)
  | Raise e => Raise e
  | OutOfFuel => OutOfFuel
  end.
Proof. unfold mbind, io_bind. by destruct (io_res m). Qed.

Lemma io_bind_returns {A B} (m : io A) (f : A → io B) b :
  io_res (m ≫= f) = Ret b →
  ∃ a, io_res m = Ret a ∧ io_res (f a) = Ret b ∧
       io_log (m ≫= f) = io_log m ++ io_log (f a).
Proof.
  rewrite io_bind_res, io_bind_log.
  destruct (io_res m) as [a | e |]; [| done | done]. by exists a.
Qed.

(** ** The worker *)

Lemma process_commit_skips fuel self commit :
  sha commit ∈ processed_commits self →
  process_commit fuel self commit = mk_io [EvSkipped (sha commit)] (Ret None).
Proof.
  intros Hin. unfold process_commit. by rewrite bool_decide_eq_true_2.
Qed.

Lemma process_commit_fresh fuel self commit :
  sha commit ∉ processed_commits self →
  process_commit fuel self commit =
  match fetch_commit_details fuel commit with
  | Ret data => mk_io (dump_events self commit data) (Ret (Some (normalized commit)))
  | Raise e => mk_io [] (Raise e)
  | OutOfFuel => mk_io [] OutOfFuel
  end.
Proof.
  intros Hin. unfold process_commit. rewrite bool_decide_eq_false_2 by done.
  destruct (fetch_commit_details fuel commit) as [[d |] | e |]; try done.
  simpl. unfold dump_events. by destruct (save_files self).
Qed.

Lemma process_commit_result fuel self commit r :
  io_res (process_commit fuel self commit) = Ret r →
  (r = None ∧ sha commit ∈ processed_commits self ∧
   io_log (process_commit fuel self commit) = [EvSkipped (sha commit)]) ∨
  (r = Some (normalized commit) ∧ (sha commit ∉ processed_commits self) ∧
   ∃ data, fetch_commit_details fuel commit = Ret data ∧
           io_log (process_commit fuel self commit) = dump_events self commit data).
Proof.
  destruct (decide (sha commit ∈ processed_commits self)) as [Hin | Hin].
  - rewrite process_commit_skips by done. intros [= <-]. by left.
  - rewrite process_commit_fresh by done.
    destruct (fetch_commit_details fuel commit) as [data | e |]; [| done | done].
    intros [= <-]. right. split; [done |]. split; [done |]. by exists data.
Qed.

(** C8, as the code has it. Every record [process_commit] returns holds the
    item's html_url, the author's display name, the author's profile URL
    built from the login or, when the item has no author, the sentinel
    "N/A", the listing's date string as it is, and the message. *)
Theorem process_commit_record fuel self commit info :
  io_res (process_commit fuel self commit) = Ret (Some info) →
  Commit_URL info = html_url commit ∧
  Author_Name info = author_name commit ∧
  (∀ login, author commit = Some login →
            Author_URL info = ("https://github.com/" +:+ login)) ∧
  (author commit = None → Author_URL info = "N/A") ∧
  Commit_Date info = author_date commit ∧
  Commit_Message info = message commit.
Proof.
  intros Hr. apply process_commit_result in Hr as [[? _] | [[= ->] _]]; [done |].
  unfold normalized. simpl. repeat split; try done.
  - by intros login ->.
  - by intros ->.
Qed.

(** ** The merge *)

Lemma merge_result_some info self :
  merge_result (Some info) self =
  mk_io [EvProcessed (ident info)]
    (Ret (set_progress self (commits_info self ++ [info])
            ({[ident info]} ∪ processed_commits self))).
Proof. reflexivity. Qed.

Lemma merge_result_none self : merge_result None self = mk_io [] (Ret self).
Proof. reflexivity. Qed.

Lemma set_progress_id self :
  set_progress self (commits_info self) (processed_commits self) = self.
Proof. by destruct self. Qed.

(** C3, as the code has it. Processing an item and merging its result twice
    in a row is idempotent when the item's html_url ends in its sha: the
    second [process_commit] finds the sha in [processed_commits] and returns
    nothing, and merging nothing leaves the progress as the first merge left
    it. The merge by itself only is idempotent on [processed_commits]. *)
Theorem process_and_merge_idempotent fuel self commit r self1 :
  last_segment (html_url commit) = sha commit →
  io_res (process_commit fuel self commit) = Ret r →
  io_res (merge_result r self) = Ret self1 →
  io_res (process_commit fuel self1 commit) = Ret None ∧
  io_res (merge_result None self1) = Ret self1 ∧
  (∀ info self2,
     io_res (merge_result (Some info) self1) = Ret self2 →
     ∀ self3, io_res (merge_result (Some info) self2) = Ret self3 →
     processed_commits self3 = processed_commits self2).
Proof.
  intros Hurl Hr Hm. split; [| split; [done |]].
  - apply process_commit_result in Hr as [(-> & Hin & _) | (-> & Hin & _)].
    + simpl in Hm. injection Hm as Hm; subst self1. by rewrite process_commit_skips.
    + rewrite merge_result_some in Hm. injection Hm as Hm; subst self1.
      rewrite process_commit_skips; [done |]. simpl.
      unfold ident, normalized. simpl. rewrite Hurl. solve_set.
  - intros info self2 [= <-] self3 [= <-]. simpl. solve_set.
Qed.


(** ** A page under the scheduler *)

Lemma extends_refl self : extends self self.
Proof.
  exists []. rewrite app_nil_r. simpl.
  rewrite (left_id_L ∅ (∪)). by rewrite set_progress_id.
Qed.

Lemma extends_merge self self' info :
  extends self self' →
  extends self (set_progress self' (commits_info self' ++ [info])
                  ({[ident info]} ∪ processed_commits self')).
Proof.
  intros [new ->]. exists (new ++ [info]). unfold set_progress. simpl.
  f_equal; [by rewrite app_assoc |].
  rewrite fmap_app, list_to_set_app_L. simpl. solve_set.
Qed.

Lemma extends_trans self1 self2 self3 :
  extends self1 self2 → extends self2 self3 → extends self1 self3.
Proof.
  intros [new1 ->] [new2 ->]. exists (new1 ++ new2). unfold set_progress. simpl.
  f_equal; [by rewrite app_assoc |].
  rewrite fmap_app, list_to_set_app_L. solve_set.
Qed.

Lemma extends_config self self' :
  extends self self' →
  commit_hash_end self' = commit_hash_end self ∧ save_files self' = save_files self.
Proof. by intros [new ->]. Qed.

Lemma extends_commits_info self self' info :
  extends self self' → info ∈ commits_info self → info ∈ commits_info self'.
Proof. intros [new ->] Hin. simpl. solve_set. Qed.

Lemma extends_processed self self' id :
  extends self self' → id ∈ processed_commits self → id ∈ processed_commits self'.
Proof. intros [new ->] Hin. simpl. solve_set. Qed.

Lemma process_commit_log fuel self commit :
  Forall worker_event (io_log (process_commit fuel self commit)).
Proof.
  destruct (decide (sha commit ∈ processed_commits self)) as [Hin | Hin].
  - rewrite process_commit_skips by done. by repeat constructor.
  - rewrite process_commit_fresh by done.
    destruct (fetch_commit_details fuel commit) as [[d |] | e |]; simpl;
      try destruct (save_files self); by repeat constructor.
Qed.

Lemma sched_step_run fuel cs i ps commit :
  cs !! i = Some commit → ps_futures ps !! i = Some Pending →
  sched_step fuel cs (Run i) ps =
  mk_io (io_log (process_commit fuel (ps_self ps) commit))
    (Ret (mk_page (ps_self ps)
            (<[i := Done (io_res (process_commit fuel (ps_self ps) commit))]>
               (ps_futures ps)))).
Proof. intros Hc Hf. simpl. by rewrite Hc, Hf. Qed.

Lemma sched_step_run_idle fuel cs i ps :
  cs !! i = None ∨ ps_futures ps !! i ≠ Some Pending →
  sched_step fuel cs (Run i) ps = mk_io [] (Ret ps).
Proof.
  intros H. simpl. destruct (cs !! i); [| done].
  destruct (ps_futures ps !! i) as [[| r |] |]; try done.
  by destruct H.
Qed.

Lemma sched_step_collect fuel cs i ps r :
  ps_futures ps !! i = Some (Done r) →
  sched_step fuel cs (Collect i) ps =
  match r with
  | Ret (Some info) =>
      mk_io [EvProcessed (ident info)]
        (Ret (mk_page
                (set_progress (ps_self ps) (commits_info (ps_self ps) ++ [info])
                   ({[ident info]} ∪ processed_commits (ps_self ps)))
                (<[i := Collected]> (ps_futures ps))))
  | Ret None => mk_io [] (Ret (mk_page (ps_self ps) (<[i := Collected]> (ps_futures ps))))
  | Raise e => mk_io [] (Raise e)
  | OutOfFuel => mk_io [] OutOfFuel
  end.
Proof. intros Hf. simpl. rewrite Hf. by destruct r as [[info |] | e |]. Qed.

Lemma sched_step_collect_idle fuel cs i ps :
  (∀ r, ps_futures ps !! i ≠ Some (Done r)) →
  sched_step fuel cs (Collect i) ps = mk_io [] (Ret ps).
Proof.
  intros H. simpl. destruct (ps_futures ps !! i) as [[| r |] |]; try done.
  by destruct (H r).
Qed.

Lemma sched_step_log fuel cs ev ps :
  Forall worker_event (io_log (sched_step fuel cs ev ps)).
Proof.
  destruct ev as [i | i].
  - destruct (cs !! i) as [commit |] eqn:Hc;
      [| rewrite sched_step_run_idle by auto; constructor].
    destruct (decide (ps_futures ps !! i = Some Pending)) as [Hf | Hf];
      [| rewrite sched_step_run_idle by auto; constructor].
    rewrite (sched_step_run _ _ _ _ commit) by done. apply process_commit_log.
  - destruct (ps_futures ps !! i) as [[| r |] |] eqn:Hf;
      try (rewrite sched_step_collect_idle by (intros ?; congruence); constructor).
    rewrite (sched_step_collect _ _ _ _ r) by done.
    destruct r as [[info |] | e |]; by repeat constructor.
Qed.

Lemma run_schedule_log fuel cs sched ps :
  Forall worker_event (io_log (run_schedule fuel cs sched ps)).
Proof.
  revert ps. induction sched as [| ev sched IH]; intros ps; simpl; [constructor |].
  rewrite io_bind_log. apply Forall_app. split; [apply sched_step_log |].
  destruct (io_res _); [apply IH | constructor | constructor].
Qed.

Lemma run_page_log fuel sched cs self :
  Forall worker_event (io_log (run_page fuel sched cs self)).
Proof.
  unfold run_page. rewrite io_bind_log. apply Forall_app.
  split; [apply run_schedule_log |]. destruct (io_res _); constructor.
Qed.

Lemma run_schedule_cons fuel cs ev sched ps :
  run_schedule fuel cs (ev :: sched) ps =
  sched_step fuel cs ev ps ≫= run_schedule fuel cs sched.
Proof. reflexivity. Qed.

Lemma run_schedule_app fuel cs sched1 sched2 ps :
  run_schedule fuel cs (sched1 ++ sched2) ps =
  run_schedule fuel cs sched1 ps ≫= run_schedule fuel cs sched2.
Proof.
  revert ps. induction sched1 as [| ev sched1 IH]; intros ps; simpl.
  - unfold mbind, io_bind. simpl. by destruct (run_schedule fuel cs sched2 ps).
  - unfold mbind, io_bind in *.
    destruct (sched_step fuel cs ev ps) as [lg [ps1 | e |]]; simpl; try done.
    rewrite IH. destruct (run_schedule fuel cs sched1 ps1) as [lg1 [ps2 | e |]]; simpl;
      by rewrite ?app_assoc.
Qed.

(** A property of the log and the page state that every step keeps is kept
    by a schedule that returns. *)
Lemma run_schedule_invariant fuel cs (P : list event → page_state → Prop) :
  (∀ lg ps ev ps',
     P lg ps → io_res (sched_step fuel cs ev ps) = Ret ps' →
     P (lg ++ io_log (sched_step fuel cs ev ps)) ps') →
  ∀ sched lg ps ps',
    P lg ps → io_res (run_schedule fuel cs sched ps) = Ret ps' →
    P (lg ++ io_log (run_schedule fuel cs sched ps)) ps'.
Proof.
  intros Hstep sched. induction sched as [| ev sched IH]; intros lg ps ps' HP Hr.
  - simpl in *. injection Hr as <-. by rewrite app_nil_r.
  - simpl in *. apply io_bind_returns in Hr as (ps1 & Hr1 & Hr2 & ->).
    rewrite app_assoc. apply IH; [| done]. by apply Hstep.
Qed.

Lemma rank_at_insert ps self' i j f :
  (i < length (ps_futures ps))%nat →
  rank_at (mk_page self' (<[i := f]> (ps_futures ps))) j =
  if decide (i = j)
  then match f with Pending => 0 | Done _ => 1 | Collected => 2 end%nat
  else rank_at ps j.
Proof.
  intros Hi. unfold rank_at. simpl. destruct (decide (i = j)) as [<- | Hne].
  - by rewrite list_lookup_insert_eq.
  - by rewrite list_lookup_insert_ne.
Qed.

Lemma sched_step_rank fuel cs ev ps ps' :
  io_res (sched_step fuel cs ev ps) = Ret ps' →
  length (ps_futures ps') = length (ps_futures ps) ∧
  ∀ j, (rank_at ps j ≤ rank_at ps' j)%nat.
Proof.
  destruct ev as [i | i].
  - destruct (cs !! i) as [commit |] eqn:Hc;
      [| rewrite sched_step_run_idle by auto; by intros [= <-]].
    destruct (decide (ps_futures ps !! i = Some Pending)) as [Hf | Hf];
      [| rewrite sched_step_run_idle by auto; by intros [= <-]].
    rewrite (sched_step_run _ _ _ _ commit) by done. intros [= <-]. simpl.
    split; [by rewrite length_insert |]. intros j.
    rewrite rank_at_insert by (by eapply lookup_lt_Some).
    case_decide as Hij; [subst j; unfold rank_at; rewrite Hf; lia | lia].
  - destruct (ps_futures ps !! i) as [[| r |] |] eqn:Hf;
      try (rewrite sched_step_collect_idle by (intros ?; congruence); by intros [= <-]).
    rewrite (sched_step_collect _ _ _ _ r) by done.
    assert (i < length (ps_futures ps))%nat as Hi by (by eapply lookup_lt_Some).
    destruct r as [[info |] | e |]; [| | done | done]; intros [= <-]; simpl;
      (split; [by rewrite length_insert |]); intros j;
      rewrite rank_at_insert by done;
      (case_decide as Hij; [subst j; unfold rank_at; rewrite Hf; lia | lia]).
Qed.

Lemma run_schedule_rank fuel cs sched ps ps' :
  io_res (run_schedule fuel cs sched ps) = Ret ps' →
  length (ps_futures ps') = length (ps_futures ps) ∧
  ∀ j, (rank_at ps j ≤ rank_at ps' j)%nat.
Proof.
  intros Hr.
  apply (run_schedule_invariant fuel cs
           (λ _ ps1, length (ps_futures ps1) = length (ps_futures ps) ∧
                     ∀ j, (rank_at ps j ≤ rank_at ps1 j)%nat)) with (lg := []) in Hr;
    [done | | done].
  intros _ ps1 ev ps2 [Hlen Hrank] Hstep.
  apply sched_step_rank in Hstep as [Hlen' Hrank'].
  split; [congruence |]. intros j. specialize (Hrank j). specialize (Hrank' j). lia.
Qed.

Lemma run_workers_rank fuel cs l ps ps' i :
  length (ps_futures ps) = length cs →
  io_res (run_schedule fuel cs (Run <$> l) ps) = Ret ps' →
  i ∈ l → (i < length cs)%nat → (1 ≤ rank_at ps' i)%nat.
Proof.
  revert ps. induction l as [| a l IH]; intros ps Hlen Hr Hin Hi; [by inversion Hin |].
  rewrite fmap_cons, run_schedule_cons in Hr.
  apply io_bind_returns in Hr as (ps1 & Hr1 & Hr2 & _).
  destruct (sched_step_rank _ _ _ _ _ Hr1) as [Hlen1 Hrank1].
  apply elem_of_cons in Hin as [-> | Hin]; [| apply (IH ps1); [congruence | done..]].
  destruct (run_schedule_rank _ _ _ _ _ Hr2) as [_ Hrank2].
  specialize (Hrank2 a). enough (1 ≤ rank_at ps1 a)%nat by lia. clear Hrank2 Hr2 IH.
  destruct (lookup_lt_is_Some_2 cs a Hi) as [commit Hc].
  destruct (decide (ps_futures ps !! a = Some Pending)) as [Hf | Hf].
  - rewrite (sched_step_run _ _ _ _ commit) in Hr1 by done. injection Hr1 as <-.
    rewrite rank_at_insert by (by eapply lookup_lt_Some). by rewrite decide_True.
  - rewrite sched_step_run_idle in Hr1 by auto. injection Hr1 as <-.
    unfold rank_at. destruct (lookup_lt_is_Some_2 (ps_futures ps) a) as [f Hfa]; [lia |].
    rewrite Hfa in *. destruct f; [done | lia | lia].
Qed.

Lemma collect_all_rank fuel cs l ps ps' i :
  io_res (run_schedule fuel cs (Collect <$> l) ps) = Ret ps' →
  i ∈ l → (1 ≤ rank_at ps i)%nat → rank_at ps' i = 2%nat.
Proof.
  revert ps. induction l as [| a l IH]; intros ps Hr Hin Hi; [by inversion Hin |].
  rewrite fmap_cons, run_schedule_cons in Hr.
  apply io_bind_returns in Hr as (ps1 & Hr1 & Hr2 & _).
  destruct (sched_step_rank _ _ _ _ _ Hr1) as [Hlen1 Hrank1].
  apply elem_of_cons in Hin as [-> | Hin];
    [| apply (IH ps1); [done | done | specialize (Hrank1 i); lia]].
  destruct (run_schedule_rank _ _ _ _ _ Hr2) as [_ Hrank2].
  specialize (Hrank2 a).
  assert (rank_at ps' a ≤ 2)%nat as Hle.
  { unfold rank_at. destruct (ps_futures ps' !! a) as [[| r |] |]; lia. }
  enough (rank_at ps1 a = 2%nat) by lia. clear Hrank2 Hr2 IH Hle.
  destruct (ps_futures ps !! a) as [[| r |] |] eqn:Hf.
  - unfold rank_at in Hi. rewrite Hf in Hi. lia.
  - rewrite (sched_step_collect _ _ _ _ r) in Hr1 by done.
    assert (a < length (ps_futures ps))%nat as Ha by (by eapply lookup_lt_Some).
    destruct r as [[info |] | e |]; [| | done | done]; injection Hr1 as <-;
      rewrite rank_at_insert by done; by rewrite decide_True.
  - rewrite sched_step_collect_idle in Hr1 by (intros ?; congruence).
    injection Hr1 as <-. unfold rank_at. by rewrite Hf.
  - unfold rank_at in Hi. rewrite Hf in Hi. lia.
Qed.

(** When the page's schedule returns, every future was taken. *)
Lemma run_page_collects fuel sched cs self ps' i :
  io_res (run_schedule fuel cs
            (sched ++ (Run <$> seq 0 (length cs)) ++ (Collect <$> seq 0 (length cs)))
            (mk_page self (replicate (length cs) Pending))) = Ret ps' →
  (i < length cs)%nat → ps_futures ps' !! i = Some Collected.
Proof.
  intros Hr Hi. rewrite run_schedule_app in Hr.
  apply io_bind_returns in Hr as (ps1 & Hr1 & Hr & _).
  rewrite run_schedule_app in Hr.
  apply io_bind_returns in Hr as (ps2 & Hr2 & Hr3 & _).
  destruct (run_schedule_rank _ _ _ _ _ Hr1) as [Hlen1 _]. simpl in Hlen1.
  rewrite length_replicate in Hlen1.
  assert (i ∈ seq 0 (length cs)) as Hin by (apply elem_of_seq; lia).
  pose proof (run_workers_rank _ _ _ _ _ i Hlen1 Hr2 Hin Hi) as H1.
  pose proof (collect_all_rank _ _ _ _ _ i Hr3 Hin H1) as H2.
  unfold rank_at in H2. destruct (ps_futures ps' !! i) as [[| r |] |]; by try lia.
Qed.

Lemma accounted_mono lg lg' self self' commit :
  extends self self' → accounted lg self commit → accounted (lg ++ lg') self' commit.
Proof.
  intros Hext [Hs | (Hp & Hi & Hid)]; [left; solve_set |].
  right. split; [solve_set |].
  split; [by eapply extends_commits_info | by eapply extends_processed].
Qed.

Lemma slot_ok_mono lg lg' self self' commit f :
  extends self self' → slot_ok lg self commit f → slot_ok (lg ++ lg') self' commit f.
Proof.
  intros Hext. destruct f as [[| [[info |] | e |] |] |]; simpl; try done.
  - solve_set.
  - by apply accounted_mono.
Qed.

Lemma extends_merge_one self info :
  extends self (set_progress self (commits_info self ++ [info])
                  ({[ident info]} ∪ processed_commits self)).
Proof. apply extends_merge, extends_refl. Qed.

Lemma sched_step_page_inv fuel cs self0 lg ps ev ps' :
  page_inv cs self0 lg ps →
  io_res (sched_step fuel cs ev ps) = Ret ps' →
  page_inv cs self0 (lg ++ io_log (sched_step fuel cs ev ps)) ps'.
Proof.
  intros [Hext Hslots] Hr.
  assert (∀ lg', page_inv cs self0 (lg ++ lg') ps) as Hidle.
  { intros lg'. split; [done |]. intros j c Hc.
    eapply slot_ok_mono; [apply extends_refl | by apply Hslots]. }
  destruct ev as [i | i].
  - destruct (cs !! i) as [commit |] eqn:Hc;
      [| rewrite sched_step_run_idle in * by auto; injection Hr as <-; apply Hidle].
    destruct (decide (ps_futures ps !! i = Some Pending)) as [Hf | Hf];
      [| rewrite sched_step_run_idle in * by auto; injection Hr as <-; apply Hidle].
    rewrite (sched_step_run _ _ _ _ commit) in * by done. injection Hr as <-. simpl.
    split; [done |]. intros j c Hcj. cbn [ps_self ps_futures].
    destruct (decide (i = j)) as [<- | Hne].
    + rewrite list_lookup_insert_eq by (by eapply lookup_lt_Some).
      assert (c = commit) as -> by congruence. simpl.
      destruct (io_res (process_commit fuel (ps_self ps) commit))
        as [[info |] | e |] eqn:Hw; try done.
      * by apply process_commit_result in Hw as [[? _] | [[= ->] _]].
      * apply process_commit_result in Hw as [(_ & _ & ->) | [? _]]; [| done].
        solve_set.
    + rewrite list_lookup_insert_ne by done.
      eapply slot_ok_mono; [apply extends_refl | by apply Hslots].
  - destruct (ps_futures ps !! i) as [[| r |] |] eqn:Hf;
      try (rewrite sched_step_collect_idle in * by (intros ?; congruence);
           injection Hr as <-; apply Hidle).
    rewrite (sched_step_collect _ _ _ _ r) in * by done.
    assert (i < length (ps_futures ps))%nat as Hi by (by eapply lookup_lt_Some).
    destruct r as [[info |] | e |]; [| | done | done]; injection Hr as <-; simpl.
    + split; [by apply extends_merge |]. intros j c Hcj. cbn [ps_self ps_futures].
      destruct (decide (i = j)) as [<- | Hne].
      * rewrite list_lookup_insert_eq by done. simpl.
        specialize (Hslots i c Hcj). rewrite Hf in Hslots. simpl in Hslots. subst info.
        right. simpl. solve_set.
      * rewrite list_lookup_insert_ne by done.
        eapply slot_ok_mono; [apply extends_merge_one | by apply Hslots].
    + split; [done |]. intros j c Hcj. cbn [ps_self ps_futures].
      destruct (decide (i = j)) as [<- | Hne].
      * rewrite list_lookup_insert_eq by done. simpl.
        specialize (Hslots i c Hcj). rewrite Hf in Hslots. simpl in Hslots.
        left. solve_set.
      * rewrite list_lookup_insert_ne by done.
        eapply slot_ok_mono; [apply extends_refl | by apply Hslots].
Qed.

(** A page that returns leaves its configuration alone, only appends
    records and adds their identifiers, and accounts for every item. *)
Lemma run_page_accounts fuel sched cs self self' :
  io_res (run_page fuel sched cs self) = Ret self' →
  extends self self' ∧
  ∀ commit, commit ∈ cs →
    accounted (io_log (run_page fuel sched cs self)) self' commit.
Proof.
  unfold run_page. intros Hr.
  apply io_bind_returns in Hr as (ps & Hr & Hret & ->).
  injection Hret as <-. simpl. rewrite app_nil_r.
  assert (page_inv cs self [] (mk_page self (replicate (length cs) Pending))) as Hinit.
  { split; [apply extends_refl |]. intros i c Hc. simpl.
    rewrite lookup_replicate_2; [done | by eapply lookup_lt_Some]. }
  pose proof (run_schedule_invariant fuel cs (page_inv cs self)
                (sched_step_page_inv fuel cs self) _ _ _ _ Hinit Hr) as [Hext Hslots].
  rewrite app_nil_l in Hslots.
  split; [done |]. intros commit Hin.
  apply list_elem_of_lookup in Hin as [i Hi].
  specialize (Hslots i commit Hi).
  rewrite (run_page_collects fuel sched cs self ps i Hr) in Hslots; [done |].
  by eapply lookup_lt_Some.
Qed.

Lemma process_commit_returns fuel self commit data :
  fetch_commit_details fuel commit = Ret data →
  ∃ r, io_res (process_commit fuel self commit) = Ret r.
Proof.
  intros Hd. destruct (decide (sha commit ∈ processed_commits self)) as [Hin | Hin].
  - rewrite process_commit_skips by done. by eexists.
  - rewrite process_commit_fresh, Hd by done. by eexists.
Qed.

Lemma sched_step_returns fuel cs ev ps :
  workers_return fuel cs → futures_returned ps →
  ∃ ps', io_res (sched_step fuel cs ev ps) = Ret ps' ∧ futures_returned ps'.
Proof.
  intros Hw Hf. destruct ev as [i | i].
  - destruct (cs !! i) as [commit |] eqn:Hc;
      [| rewrite sched_step_run_idle by auto; by eexists].
    destruct (decide (ps_futures ps !! i = Some Pending)) as [Hp | Hp];
      [| rewrite sched_step_run_idle by auto; by eexists].
    rewrite (sched_step_run _ _ _ _ commit) by done. eexists. split; [done |].
    intros j r. cbn [ps_futures]. destruct (decide (i = j)) as [<- | Hne].
    + rewrite list_lookup_insert_eq by (by eapply lookup_lt_Some). intros [= <-].
      destruct (Hw commit) as [data Hd]; [by eapply list_elem_of_lookup_2 |].
      destruct (process_commit_returns fuel (ps_self ps) commit data Hd) as [r ->].
      by eexists.
    + rewrite list_lookup_insert_ne by done. apply Hf.
  - destruct (ps_futures ps !! i) as [[| r |] |] eqn:Hd;
      try (rewrite sched_step_collect_idle by (intros ?; congruence); by eexists).
    rewrite (sched_step_collect _ _ _ _ r) by done.
    assert (i < length (ps_futures ps))%nat as Hi by (by eapply lookup_lt_Some).
    destruct (Hf i r Hd) as [[info |] ->]; (eexists; split; [done |]);
      intros j r; cbn [ps_futures]; (destruct (decide (i = j)) as [<- | Hne];
        [by rewrite list_lookup_insert_eq | rewrite list_lookup_insert_ne by done; apply Hf]).
Qed.

Lemma run_schedule_returns fuel cs sched ps :
  workers_return fuel cs → futures_returned ps →
  ∃ ps', io_res (run_schedule fuel cs sched ps) = Ret ps'.
Proof.
  intros Hw. revert ps. induction sched as [| ev sched IH]; intros ps Hf.
  - by eexists.
  - destruct (sched_step_returns fuel cs ev ps Hw Hf) as (ps1 & Hr1 & Hf1).
    destruct (IH ps1 Hf1) as [ps' Hr]. exists ps'.
    by rewrite run_schedule_cons, io_bind_res, Hr1.
Qed.

(** A page whose detail calls all return is processed to its end, whatever
    the scheduler does. *)
Lemma run_page_returns fuel sched cs self :
  workers_return fuel cs → ∃ self', io_res (run_page fuel sched cs self) = Ret self'.
Proof.
  intros Hw. unfold run_page.
  edestruct (run_schedule_returns fuel cs) as [ps Hr]; [done | | ].
  2: { eexists. by rewrite io_bind_res, Hr. }
  intros i r. simpl. intros Hl. apply lookup_replicate in Hl as [? _]. done.
Qed.

(** C1, as the code has it. A commit whose detail call returns no data is
    not dropped: [process_commit] still returns the record built from the
    listing item and only the file dump is left out; on a page it is
    accounted for like every other item (its record is appended to
    [commits_info] and the last segment of its html_url is added to
    [processed_commits], unless it was skipped as already processed), and the
    page runs to its end when the other detail calls return too. *)
Theorem failed_detail_fetch_is_recorded fuel sched cs self commit :
  commit ∈ cs →
  fetch_commit_details fuel commit = Ret None →
  (sha commit ∉ processed_commits self →
   process_commit fuel self commit = mk_io [] (Ret (Some (normalized commit)))) ∧
  (∀ self', io_res (run_page fuel sched cs self) = Ret self' →
     accounted (io_log (run_page fuel sched cs self)) self' commit) ∧
  (workers_return fuel cs →
   ∃ self', io_res (run_page fuel sched cs self) = Ret self').
Proof.
  intros Hin Hd. split; [| split].
  - intros Hfresh. by rewrite process_commit_fresh, Hd.
  - intros self' Hr. by apply run_page_accounts in Hr as [_ Hacc]; auto.
  - apply run_page_returns.
Qed.

(** ** The progress invariant *)

Lemma extends_no_orphans self self' :
  extends self self' → no_orphans self → no_orphans self'.
Proof.
  intros [new ->] Hno id. simpl. specialize (Hno id).
  rewrite elem_of_union, elem_of_list_to_set, list_elem_of_fmap, Hno.
  setoid_rewrite elem_of_app. forget_oracle; naive_solver.
Qed.

Lemma sched_step_bijection_inv fuel cs ev ps ps' :
  page_distinct cs → bijection_inv cs ps →
  io_res (sched_step fuel cs ev ps) = Ret ps' → bijection_inv cs ps'.
Proof.
  intros [Hnodup Hurl] (Hno & Hone & Hdone) Hr. destruct ev as [i | i].
  - destruct (cs !! i) as [commit |] eqn:Hc;
      [| rewrite sched_step_run_idle in * by auto; by injection Hr as <-].
    destruct (decide (ps_futures ps !! i = Some Pending)) as [Hf | Hf];
      [| rewrite sched_step_run_idle in * by auto; by injection Hr as <-].
    rewrite (sched_step_run _ _ _ _ commit) in * by done. injection Hr as <-.
    split; [done |]. split; [done |]. intros j r. cbn [ps_futures ps_self].
    destruct (decide (i = j)) as [<- | Hne].
    + rewrite list_lookup_insert_eq by (by eapply lookup_lt_Some). intros [= <-].
      exists commit. split; [done |]. intros info Hw.
      by apply process_commit_result in Hw as [[? _] | ([= ->] & ? & _)].
    + rewrite list_lookup_insert_ne by done. apply Hdone.
  - destruct (ps_futures ps !! i) as [[| r |] |] eqn:Hf;
      try (rewrite sched_step_collect_idle in * by (intros ?; congruence);
           by injection Hr as <-).
    rewrite (sched_step_collect _ _ _ _ r) in * by done.
    assert (i < length (ps_futures ps))%nat as Hi by (by eapply lookup_lt_Some).
    destruct (Hdone i r Hf) as (commit & Hc & Hinfo).
    destruct r as [[info |] | e |]; [| | done | done]; injection Hr as <-;
      cbn [ps_futures ps_self].
    + destruct (Hinfo info eq_refl) as [-> Hfresh].
      assert (ident (normalized commit) = sha commit) as Hid.
      { apply Hurl. by eapply list_elem_of_lookup_2. }
      split; [by eapply extends_no_orphans; [apply extends_merge_one |] |].
      split.
      * unfold one_record_each. simpl. rewrite fmap_app. apply NoDup_app.
        split; [done |]. split; [| apply NoDup_singleton].
        intros id Hin1 Hin2. apply list_elem_of_singleton in Hin2. subst id.
        apply Hfresh, Hno. apply list_elem_of_fmap in Hin1 as (info & Heq & Hin1).
        exists info. split; [done | congruence].
      * intros j r. cbn [ps_futures ps_self]. destruct (decide (i = j)) as [<- | Hne];
          [by rewrite list_lookup_insert_eq |].
        rewrite list_lookup_insert_ne by done. intros Hj.
        destruct (Hdone j r Hj) as (commit' & Hc' & Hinfo').
        exists commit'. split; [done |]. intros info Hrj.
        destruct (Hinfo' info Hrj) as [-> Hfresh']. split; [done |].
        simpl. rewrite Hid. apply not_elem_of_union. split; [| done].
        apply not_elem_of_singleton. intros Hsha. apply Hne.
        eapply NoDup_lookup; [exact Hnodup | |];
          rewrite list_lookup_fmap; [by rewrite Hc | rewrite Hc'; simpl; by rewrite Hsha].
    + split; [done |]. split; [done |]. intros j r. cbn [ps_futures ps_self].
      destruct (decide (i = j)) as [<- | Hne]; [by rewrite list_lookup_insert_eq |].
      rewrite list_lookup_insert_ne by done. apply Hdone.
Qed.


(** ** The pagination loop *)

Lemma fetched_pages_app lg1 lg2 :
  fetched_pages (lg1 ++ lg2) = fetched_pages lg1 ++ fetched_pages lg2.
Proof. apply omap_app. Qed.

Lemma fetched_pages_fetch page lg :
  fetched_pages (EvFetchCommits page :: lg) = page :: fetched_pages lg.
Proof. reflexivity. Qed.

Lemma fetched_pages_worker lg : Forall worker_event lg → fetched_pages lg = [].
Proof.
  induction 1 as [| ev lg Hev _ IH]; [done |].
  unfold fetched_pages in *. simpl. by destruct ev.
Qed.

Lemma elem_of_fetched_pages lg page :
  EvFetchCommits page ∈ lg ↔ page ∈ fetched_pages lg.
Proof.
  unfold fetched_pages. rewrite list_elem_of_omap. split.
  - intros Hin. by exists (EvFetchCommits page).
  - intros (ev & Hin & Hev). destruct ev; try done. by injection Hev as ->.
Qed.


(** One turn of the loop, by what the listing call and the page did. *)
Lemma process_commits_loop_unfold n fuel sched page self :
  process_commits_loop (S n) fuel sched page self =
  match fetch_commits fuel page with
  | Ret (Some (c :: cs')) =>
      let pg := run_page fuel (sched page) (c :: cs') self in
      match io_res pg with
      | Ret self' =>
          if stop_here self' (c :: cs')
          then mk_io (EvFetchCommits page :: io_log pg
                        ++ [save_progress_event self'; EvSleep 6])
                 (Ret self')
          else mk_io (EvFetchCommits page :: io_log pg
                        ++ [save_progress_event self'; EvSleep 6]
                        ++ io_log (process_commits_loop n fuel sched (S page) self'))
                 (io_res (process_commits_loop n fuel sched (S page) self'))
      | Raise e => mk_io (EvFetchCommits page :: io_log pg) (Raise e)
      | OutOfFuel => mk_io (EvFetchCommits page :: io_log pg) OutOfFuel
      end
  | Ret _ => mk_io [EvFetchCommits page] (Ret self)
  | Raise e => mk_io [EvFetchCommits page] (Raise e)
  | OutOfFuel => mk_io [EvFetchCommits page] OutOfFuel
  end.
Proof.
  cbn [process_commits_loop].
  destruct (fetch_commits fuel page) as [[[| c cs'] |] | e |]; try reflexivity.
  unfold mbind, io_bind, lift, emit. cbn [io_res io_log].
  destruct (io_res (run_page fuel (sched page) (c :: cs') self)) as [self' | e |] eqn:Hpg;
    cbn [io_res io_log app]; try reflexivity.
  destruct (stop_here self' (c :: cs')); reflexivity.
Qed.

Lemma process_commits_loop_extends n fuel sched page self self' :
  io_res (process_commits_loop n fuel sched page self) = Ret self' → extends self self'.
Proof.
  revert page self. induction n as [| n IH]; intros page self; [done |].
  rewrite process_commits_loop_unfold.
  destruct (fetch_commits fuel page) as [[[| c cs'] |] | e |]; simpl;
    try done; try (intros [= <-]; apply extends_refl).
  destruct (io_res (run_page fuel (sched page) (c :: cs') self)) as [self1 | e |] eqn:Hpg;
    [| done | done].
  apply run_page_accounts in Hpg as [Hext _].
  destruct (stop_here self1 (c :: cs')); simpl; [by intros [= <-] |].
  intros Hr. eapply extends_trans; [done | by eapply IH].
Qed.

Lemma process_commits_loop_pages n fuel sched page self :
  ∃ k, fetched_pages (io_log (process_commits_loop n fuel sched page self)) = seq page k.
Proof.
  revert page self. induction n as [| n IH]; intros page self; [by exists 0%nat |].
  rewrite process_commits_loop_unfold.
  destruct (fetch_commits fuel page) as [[[| c cs'] |] | e |];
    try by exists 1%nat.
  pose proof (fetched_pages_worker _ (run_page_log fuel (sched page) (c :: cs') self)) as Hw.
  cbn zeta.
  destruct (io_res (run_page fuel (sched page) (c :: cs') self)) as [self1 | e |];
    [| exists 1%nat; cbn [io_log]; by rewrite fetched_pages_fetch, Hw..].
  destruct (stop_here self1 (c :: cs')); cbn [io_log];
    rewrite fetched_pages_fetch, !fetched_pages_app, Hw.
  - by exists 1%nat.
  - destruct (IH (S page) self1) as [k Hk]. exists (S k). by rewrite Hk.
Qed.

Lemma process_commits_loop_from n fuel sched page self q :
  EvFetchCommits q ∈ io_log (process_commits_loop n fuel sched page self) →
  (page ≤ q)%nat.
Proof.
  intros Hin. apply elem_of_fetched_pages in Hin.
  destruct (process_commits_loop_pages n fuel sched page self) as [k Hk].
  rewrite Hk in Hin. apply elem_of_seq in Hin. lia.
Qed.

(** ** More on the rate-limit check and the request loops *)

(** [handle_rate_limit] raises in five cases only, all of them on a 403
    that carries the remaining-quota header: [ValueError] when that header
    is no numeral; with the quota at zero, [KeyError] when there is no reset
    header, [ValueError] when the reset header is no numeral,
    [OverflowError] when the reset epoch has no float, and what
    [time.sleep] raises when it refuses a positive wait. *)
Theorem handle_rate_limit_raises_iff {A} (response : response A) (now : Q) (e : exn) :
  handle_rate_limit response now = Raise e ↔
  status_code response = 403 ∧
  ∃ text, header response "X-RateLimit-Remaining" = Some text ∧
    ((py_int text = None ∧ e = ValueError) ∨
     (py_int text = Some 0 ∧
      ((header response "X-RateLimit-Reset" = None ∧ e = KeyError) ∨
       ∃ text', header response "X-RateLimit-Reset" = Some text' ∧
         ((py_int text' = None ∧ e = ValueError) ∨
          ∃ reset_time, py_int text' = Some reset_time ∧
            ((float_limit ≤ Z.abs reset_time ∧ e = OverflowError) ∨
             (Z.abs reset_time < float_limit ∧
              (0 < inject_Z reset_time - now)%Q ∧
              py_sleep (inject_Z reset_time - now) = Some e)))))).
Proof.
  destruct (decide (status_code response = 403)) as [Hs | Hs].
  2: { rewrite handle_rate_limit_not_403 by done. split; [done | by intros [? _]]. }
  destruct (header response "X-RateLimit-Remaining") as [text |] eqn:Hh.
  2: { rewrite handle_rate_limit_no_header by done.
       split; [done | by intros (_ & ? & ? & _)]. }
  rewrite (handle_rate_limit_403 response now text Hs Hh).
  split.
  - intros Hr. split; [done |]. exists text. split; [done |].
    destruct (py_int text) as [remaining |] eqn:Hp; [| left; by simplify_eq].
    destruct (Z.eqb_spec remaining 0) as [-> | Hnz]; [| done].
    right. split; [done |].
    destruct (header response "X-RateLimit-Reset") as [text' |] eqn:Hh';
      [| left; by simplify_eq].
    right. exists text'. split; [done |].
    destruct (py_int text') as [reset_time |] eqn:Hp'; [| left; by simplify_eq].
    right. exists reset_time. split; [done |].
    destruct (Z.ltb_spec (Z.abs reset_time) float_limit) as [Hlt | Hge];
      [| left; by simplify_eq].
    right. split; [done |].
    destruct (Qlt_le_dec _ _) as [Hpos | _]; [| done].
    split; [done |]. destruct (py_sleep _); by simplify_eq.
  - intros (_ & text0 & [= <-] & Hcases).
    destruct Hcases as [[-> ->] | [-> Hcases]]; [done |]. simpl.
    destruct Hcases as [[-> ->] | (text' & -> & Hcases)]; [done |].
    destruct Hcases as [[-> ->] | (reset_time & -> & Hcases)]; [done |].
    destruct Hcases as [[Hge ->] | (Hlt & Hpos & Hsleep)].
    + by destruct (Z.ltb_spec (Z.abs reset_time) float_limit) as [Hlt | _]; [lia |].
    + destruct (Z.ltb_spec (Z.abs reset_time) float_limit) as [_ | Hge]; [| lia].
      destruct (Qlt_le_dec _ _) as [_ | Hle]; [| lra].
      by rewrite Hsleep.
Qed.

(** [fetch_commits] raises exactly when, after a run of 403s it went round
    on, [handle_rate_limit] raises on a response: the exception is no
    [RequestException], so that the [except] clause does not catch it. A
    failed request or any status other than 403 never makes it raise. *)
Theorem fetch_commits_raises_iff (fuel page : nat) (e : exn) :
  fetch_commits fuel page = Raise e ↔
  ∃ k, (k < fuel)%nat ∧
       (∀ j, (j < k)%nat → goes_round (listing_http page j)) ∧
       raises_on (listing_http page k) e.
Proof. unfold fetch_commits. by rewrite request_loop_raises_iff. Qed.

(** ** More on a page *)

Lemma process_commit_events fuel self commit ev :
  ev ∈ io_log (process_commit fuel self commit) →
  (ev = EvSkipped (sha commit) ∧ sha commit ∈ processed_commits self) ∨
  (∃ d, ev = EvSaveCommitFiles (sha commit) d ∧ save_files self = true ∧
        fetch_commit_details fuel commit = Ret (Some d)).
Proof.
  destruct (decide (sha commit ∈ processed_commits self)) as [Hin | Hin].
  - rewrite process_commit_skips by done. simpl. intros Hev.
    apply list_elem_of_singleton in Hev. by left.
  - rewrite process_commit_fresh by done.
    destruct (fetch_commit_details fuel commit) as [[d |] | e |] eqn:Hd; simpl;
      try (intros Hev; by apply elem_of_nil in Hev).
    destruct (save_files self) eqn:Hsave; [| intros Hev; by apply elem_of_nil in Hev].
    intros Hev. apply list_elem_of_singleton in Hev. right. by exists d.
Qed.





Lemma sched_step_reported fuel cs lg ps ev ps' :
  reported_in lg (ps_self ps) →
  io_res (sched_step fuel cs ev ps) = Ret ps' →
  reported_in (lg ++ io_log (sched_step fuel cs ev ps)) (ps_self ps').
Proof.
  intros Hrep Hr. destruct ev as [i | i].
  - destruct (cs !! i) as [commit |] eqn:Hc;
      [| rewrite sched_step_run_idle in * by auto; injection Hr as <-;
         by rewrite app_nil_r].
    destruct (decide (ps_futures ps !! i = Some Pending)) as [Hf | Hf];
      [| rewrite sched_step_run_idle in * by auto; injection Hr as <-;
         by rewrite app_nil_r].
    rewrite (sched_step_run _ _ _ _ commit) in * by done. injection Hr as <-. simpl.
    intros s Hs. rewrite !elem_of_app in Hs.
    destruct Hs as [[Hs | Hs] | [Hs | Hs]]; try (apply Hrep; by auto);
      apply process_commit_events in Hs as [[[= ->] Hin] | (d & [=] & _)]; done.
  - destruct (ps_futures ps !! i) as [[| r |] |] eqn:Hf;
      try (rewrite sched_step_collect_idle in * by (intros ?; congruence);
           injection Hr as <-; by rewrite app_nil_r).
    rewrite (sched_step_collect _ _ _ _ r) in * by done.
    destruct r as [[info |] | e |]; [| | done | done]; injection Hr as <-; simpl.
    + intros s Hs. rewrite !elem_of_app, !list_elem_of_singleton in Hs.
      apply elem_of_union.
      destruct Hs as [[Hs | [=]] | [Hs | [= ->]]];
        [right; apply Hrep; by auto | right; apply Hrep; by auto | left].
      by apply elem_of_singleton.
    + by rewrite app_nil_r.
Qed.

(** What a page that returns reports as skipped or processed is in its
    [processed_commits]. *)
Lemma run_page_reported fuel sched cs self self' :
  io_res (run_page fuel sched cs self) = Ret self' →
  reported_in (io_log (run_page fuel sched cs self)) self'.
Proof.
  unfold run_page. intros Hr.
  apply io_bind_returns in Hr as (ps & Hr & Hret & ->).
  injection Hret as <-. simpl. rewrite app_nil_r.
  apply (run_schedule_invariant fuel cs (λ lg ps, reported_in lg (ps_self ps)))
    with (lg := []) in Hr; [done | |].
  - intros lg ps1 ev ps2. apply sched_step_reported.
  - intros s [Hs | Hs]; by apply elem_of_nil in Hs.
Qed.

Lemma run_schedule_all_processed fuel cs self sched ps :
  (∀ commit, commit ∈ cs → already_processed self commit) →
  ps_self ps = self →
  (∀ i r, ps_futures ps !! i = Some (Done r) → r = Ret None) →
  ∃ ps',
    io_res (run_schedule fuel cs sched ps) = Ret ps' ∧ ps_self ps' = self ∧
    Forall (skips_item cs) (io_log (run_schedule fuel cs sched ps)).
Proof.
  intros Hall. revert ps. induction sched as [| ev sched IH]; intros ps Hself Hdone.
  { exists ps. split; [done |]. split; [done | constructor]. }
  rewrite run_schedule_cons, io_bind_res, io_bind_log.
  assert (∃ ps1, io_res (sched_step fuel cs ev ps) = Ret ps1 ∧ ps_self ps1 = self ∧
                 (∀ i r, ps_futures ps1 !! i = Some (Done r) → r = Ret None) ∧
                 Forall (skips_item cs) (io_log (sched_step fuel cs ev ps)))
    as (ps1 & Hr1 & Hself1 & Hdone1 & Hlog1).
  { destruct ev as [i | i].
    - destruct (cs !! i) as [commit |] eqn:Hc;
        [| rewrite sched_step_run_idle by auto; exists ps; repeat split; by try constructor].
      destruct (decide (ps_futures ps !! i = Some Pending)) as [Hf | Hf];
        [| rewrite sched_step_run_idle by auto; exists ps; repeat split; by try constructor].
      rewrite (sched_step_run _ _ _ _ commit) by done.
      assert (commit ∈ cs) as Hin by (by eapply list_elem_of_lookup_2).
      rewrite process_commit_skips by (rewrite Hself; by apply Hall).
      eexists. split; [done |]. split; [done |]. split.
      + intros j r. cbn [ps_futures]. destruct (decide (i = j)) as [<- | Hne].
        * rewrite list_lookup_insert_eq by (by eapply lookup_lt_Some). by intros [= <-].
        * rewrite list_lookup_insert_ne by done. apply Hdone.
      + simpl. repeat constructor. by exists commit.
    - destruct (ps_futures ps !! i) as [[| r |] |] eqn:Hf;
        try (rewrite sched_step_collect_idle by (intros ?; congruence);
             exists ps; repeat split; by try constructor).
      rewrite (sched_step_collect _ _ _ _ r) by done.
      rewrite (Hdone i r Hf). eexists. split; [done |]. split; [done |].
      split; [| constructor].
      intros j r'. cbn [ps_futures]. destruct (decide (i = j)) as [<- | Hne].
      + rewrite list_lookup_insert_eq by (by eapply lookup_lt_Some). done.
      + rewrite list_lookup_insert_ne by done. apply Hdone. }
  rewrite Hr1. destruct (IH ps1 Hself1 Hdone1) as (ps' & Hr & Hself' & Hlog).
  exists ps'. split; [done |]. split; [done |]. apply Forall_app. by split.
Qed.

Lemma run_page_skips fuel sched cs self :
  (∀ commit, commit ∈ cs → already_processed self commit) →
  io_res (run_page fuel sched cs self) = Ret self ∧
  Forall (skips_item cs) (io_log (run_page fuel sched cs self)).
Proof.
  intros Hall.
  destruct (run_schedule_all_processed fuel cs self
              (sched ++ (Run <$> seq 0 (length cs)) ++ (Collect <$> seq 0 (length cs)))
              (mk_page self (replicate (length cs) Pending)) Hall eq_refl)
    as (ps' & Hr & Hself & Hlog).
  { intros i r. simpl. intros Hl. apply lookup_replicate in Hl as [? _]. done. }
  split.
  - unfold run_page. by rewrite io_bind_res, Hr, <- Hself.
  - unfold run_page. rewrite io_bind_log, Hr. simpl. by rewrite app_nil_r.
Qed.

(** A page whose items are all already processed is a page of skips: under
    every scheduler and with any fuel, also none, so that no detail call is
    made, it returns the fetcher unchanged, and it reports every item, and
    nothing else, as skipped. *)
Theorem run_page_all_processed fuel sched cs self :
  (∀ commit, commit ∈ cs → already_processed self commit) →
  io_res (run_page fuel sched cs self) = Ret self ∧
  Forall (skips_item cs) (io_log (run_page fuel sched cs self)) ∧
  ∀ commit, commit ∈ cs → EvSkipped (sha commit) ∈ io_log (run_page fuel sched cs self).
Proof.
  intros Hall. destruct (run_page_skips fuel sched cs self Hall) as [Hret Hskips].
  split; [done |]. split; [done |]. intros commit Hin.
  destruct (run_page_accounts _ _ _ _ _ Hret) as [_ Hacc].
  destruct (Hacc commit Hin) as [Hs | (Hp & _)]; [done |].
  rewrite Forall_forall in Hskips. by destruct (Hskips _ Hp) as (c & _ & [=]).
Qed.

(** ** More on the pagination loop *)

Lemma elem_of_page_block (ev : event) page (pg rest : list event) self1 :
  ev ∈ EvFetchCommits page :: pg ++ [save_progress_event self1; EvSleep 6] ++ rest ↔
  ev = EvFetchCommits page ∨ ev ∈ pg ∨ ev = save_progress_event self1 ∨
  ev = EvSleep 6 ∨ ev ∈ rest.
Proof.
  rewrite elem_of_cons, !elem_of_app, !elem_of_cons, elem_of_nil.
  forget_oracle; naive_solver.
Qed.

Lemma worker_event_not_save (pg : list event) infos processed :
  Forall worker_event pg → EvSaveProgress infos processed ∉ pg.
Proof.
  intros Hall Hin. rewrite Forall_forall in Hall. by apply Hall in Hin.
Qed.



Lemma reported_in_weaken lg self self' :
  extends self self' → reported_in lg self → reported_in lg self'.
Proof. intros Hext Hrep s Hs. eapply extends_processed; [done | by apply Hrep]. Qed.

Lemma process_commits_loop_reported n fuel sched page self self' :
  io_res (process_commits_loop n fuel sched page self) = Ret self' →
  reported_in (io_log (process_commits_loop n fuel sched page self)) self'.
Proof.
  revert page self. induction n as [| n IH]; intros page self; [done |].
  rewrite process_commits_loop_unfold.
  assert (∀ s, ¬ (EvSkipped s ∈ [EvFetchCommits page] ∨ EvProcessed s ∈ [EvFetchCommits page]))
    as Hnone.
  { intros s [Hs | Hs]; by apply list_elem_of_singleton in Hs. }
  destruct (fetch_commits fuel page) as [[[| c cs'] |] | e |]; cbn zeta;
    try done; try (intros _ s Hs; by apply Hnone in Hs).
  destruct (io_res (run_page fuel (sched page) (c :: cs') self)) as [self1 | e |] eqn:Hr;
    [| done | done].
  pose proof (run_page_reported _ _ _ _ _ Hr) as Hrep.
  destruct (stop_here self1 (c :: cs')); cbn [io_log io_res].
  - intros [= <-] s Hs. apply Hrep. rewrite <- (app_nil_r [_; _]) in Hs.
    rewrite !elem_of_page_block in Hs.
    destruct Hs as [[[=] | [Hs | [[=] | [[=] | Hs]]]] | [[=] | [Hs | [[=] | [[=] | Hs]]]]];
      try (by apply elem_of_nil in Hs); by auto.
  - intros Hr' s Hs. rewrite !elem_of_page_block in Hs.
    pose proof (process_commits_loop_extends _ _ _ _ _ _ Hr') as Hext.
    destruct Hs as [[[=] | [Hs | [[=] | [[=] | Hs]]]] | [[=] | [Hs | [[=] | [[=] | Hs]]]]];
      try (by apply (IH _ _ Hr'); auto);
      by apply (reported_in_weaken _ _ _ Hext Hrep); auto.
Qed.

(** A run that returns has only added: the records it started with are the
    first records it ends with, in their order; no identifier was taken out
    of [processed_commits]; the configuration is what it was; and every hash
    the log reports as skipped or as processed is in [processed_commits]. *)
Theorem process_commits_only_adds n fuel sched self self' :
  io_res (process_commits n fuel sched self) = Ret self' →
  commits_info self `prefix_of` commits_info self' ∧
  processed_commits self ⊆ processed_commits self' ∧
  (repo_owner self', repo_name self', per_page self', commit_hash_end self', save_files self')
    = (repo_owner self, repo_name self, per_page self, commit_hash_end self, save_files self) ∧
  reported_in (io_log (process_commits n fuel sched self)) self'.
Proof.
  intros Hr. pose proof (process_commits_loop_extends _ _ _ _ _ _ Hr) as [new ->].
  split; [by exists new |]. split; [simpl; solve_set |]. split; [done |].
  by apply process_commits_loop_reported in Hr.
Qed.

Lemma process_commits_loop_checkpoints n fuel sched page self infos processed :
  EvSaveProgress infos processed ∈ io_log (process_commits_loop n fuel sched page self) →
  ∃ self_m, extends self self_m ∧
            infos = commits_info self_m ∧ processed = processed_commits self_m.
Proof.
  revert page self. induction n as [| n IH]; intros page self Hin;
    [by apply elem_of_nil in Hin |].
  rewrite process_commits_loop_unfold in Hin.
  assert (∀ lg : list event, EvSaveProgress infos processed ∈ EvFetchCommits page :: lg →
                             EvSaveProgress infos processed ∈ lg) as Htail.
  { intros lg Hev. by apply elem_of_cons in Hev as [[=] | Hev]. }
  destruct (fetch_commits fuel page) as [[[| c cs'] |] | e |] eqn:Hpage;
    try (apply Htail in Hin; by apply elem_of_nil in Hin).
  cbn zeta in Hin.
  pose proof (worker_event_not_save _ infos processed
                (run_page_log fuel (sched page) (c :: cs') self)) as Hnot.
  destruct (io_res (run_page fuel (sched page) (c :: cs') self)) as [self1 | e |] eqn:Hr;
    try (by apply Htail in Hin).
  pose proof (run_page_accounts _ _ _ _ _ Hr) as [Hext _].
  destruct (stop_here self1 (c :: cs')); cbn [io_log] in Hin.
  - rewrite <- (app_nil_r [_; _]) in Hin.
    apply elem_of_page_block in Hin as [[=] | [Hin | [Heq | [[=] | Hin]]]];
      [done | | by apply elem_of_nil in Hin].
    injection Heq as -> ->. by exists self1.
  - apply elem_of_page_block in Hin as [[=] | [Hin | [Heq | [[=] | Hin]]]]; [done | |].
    + injection Heq as -> ->. by exists self1.
    + destruct (IH _ _ Hin) as (self_m & Hext' & -> & ->).
      exists self_m. split; [by eapply extends_trans | done].
Qed.

(** Every checkpoint a run writes, also one it does not survive, holds the
    records the run started with as its first records, and is free of
    orphans in both directions when the progress the run started with is. *)
Theorem checkpoints_have_no_orphans n fuel sched self infos processed :
  EvSaveProgress infos processed ∈ io_log (process_commits n fuel sched self) →
  commits_info self `prefix_of` infos ∧
  processed_commits self ⊆ processed ∧
  (no_orphans self →
   ∀ id, id ∈ processed ↔ ∃ info, info ∈ infos ∧ ident info = id).
Proof.
  intros Hin.
  apply process_commits_loop_checkpoints in Hin as (self_m & Hext & -> & ->).
  split; [| split].
  - destruct Hext as [new ->]. by exists new.
  - destruct Hext as [new ->]. simpl. solve_set.
  - intros Hno. by apply (extends_no_orphans _ _ Hext Hno).
Qed.

Lemma stop_here_unconfigured self cs : no_stop_identifier self → stop_here self cs = false.
Proof. unfold stop_here. by intros [-> | ->]. Qed.

Lemma process_commits_loop_unconfigured n fuel sched page self self' :
  no_stop_identifier self →
  io_res (process_commits_loop n fuel sched page self) = Ret self' →
  ∃ k, fetched_pages (io_log (process_commits_loop n fuel sched page self))
         = seq page (S k) ∧
       page_ends_run fuel (page + k) ∧
       ∀ q, (page ≤ q < page + k)%nat → page_listed fuel q.
Proof.
  intros Hno. revert page self Hno. induction n as [| n IH]; intros page self Hno; [done |].
  rewrite process_commits_loop_unfold.
  destruct (fetch_commits fuel page) as [[[| c cs'] |] | e |] eqn:Hpage; cbn zeta;
    try done.
  - intros _. exists 0%nat. rewrite Nat.add_0_r. split; [done |].
    split; [by right | intros; lia].
  - pose proof (fetched_pages_worker _ (run_page_log fuel (sched page) (c :: cs') self)) as Hw.
    destruct (io_res (run_page fuel (sched page) (c :: cs') self)) as [self1 | e |] eqn:Hr;
      [| done | done].
    pose proof (run_page_accounts _ _ _ _ _ Hr) as [Hext _].
    assert (no_stop_identifier self1) as Hno1.
    { unfold no_stop_identifier. by destruct (extends_config _ _ Hext) as [-> _]. }
    rewrite (stop_here_unconfigured self1 (c :: cs') Hno1). cbn [io_log io_res].
    intros Hr'. destruct (IH _ _ Hno1 Hr') as (k & Hpages & Hend & Hlisted).
    exists (S k). split; [| split].
    + by rewrite fetched_pages_fetch, !fetched_pages_app, Hw, Hpages.
    + by rewrite <- Nat.add_succ_comm.
    + intros q Hq. destruct (decide (q = page)) as [-> | Hne]; [by exists c, cs' |].
      apply Hlisted. lia.
  - intros _. exists 0%nat. rewrite Nat.add_0_r. split; [done |].
    split; [by left | intros; lia].
Qed.

(** Without a stop identifier (none, or the empty string) a run returns
    only at a listing that is empty or has no data: it has listed the pages
    1, ..., k+1 in this order, the pages 1, ..., k came with items, and page
    k+1 ended the run. *)
Theorem unconfigured_run_ends_at_empty_page n fuel sched self self' :
  no_stop_identifier self →
  io_res (process_commits n fuel sched self) = Ret self' →
  ∃ k, fetched_pages (io_log (process_commits n fuel sched self)) = seq 1 (S k) ∧
       page_ends_run fuel (S k) ∧
       ∀ q, (1 ≤ q ≤ k)%nat → page_listed fuel q.
Proof.
  intros Hno Hr.
  destruct (process_commits_loop_unconfigured _ _ _ _ _ _ Hno Hr) as (k & Hp & He & Hl).
  exists k. split; [done |]. split; [done |]. intros q Hq. apply Hl. lia.
Qed.

Lemma stop_here_config self1 self2 cs :
  commit_hash_end self1 = commit_hash_end self2 → stop_here self1 cs = stop_here self2 cs.
Proof. unfold stop_here. by intros ->. Qed.

Lemma skips_item_quiet cs lg : Forall (skips_item cs) lg → Forall quiet lg.
Proof. intros Hall. eapply Forall_impl; [exact Hall |]. by intros ev (commit & _ & ->). Qed.

Lemma accounted_processed fuel sched cs self self' commit :
  io_res (run_page fuel sched cs self) = Ret self' →
  commit ∈ cs → last_segment (html_url commit) = sha commit →
  sha commit ∈ processed_commits self'.
Proof.
  intros Hr Hin Hurl. pose proof (run_page_reported _ _ _ _ _ Hr) as Hrep.
  destruct (run_page_accounts _ _ _ _ _ Hr) as [_ Hacc].
  destruct (Hacc commit Hin) as [Hs | (_ & _ & Hid)]; [apply Hrep; by left |].
  unfold ident, normalized in Hid. simpl in Hid. by rewrite Hurl in Hid.
Qed.

Lemma process_commits_loop_rerun n fuel sched sched' page self self' again :
  urls_end_in_sha fuel →
  io_res (process_commits_loop n fuel sched page self) = Ret self' →
  commit_hash_end again = commit_hash_end self →
  processed_commits self' ⊆ processed_commits again →
  io_res (process_commits_loop n fuel sched' page again) = Ret again ∧
  Forall quiet (io_log (process_commits_loop n fuel sched' page again)) ∧
  fetched_pages (io_log (process_commits_loop n fuel sched' page again))
    = fetched_pages (io_log (process_commits_loop n fuel sched page self)).
Proof.
  intros Hurls. revert page self. induction n as [| n IH]; intros page self Hr Hend Hsub;
    [done |].
  rewrite !process_commits_loop_unfold in *.
  destruct (fetch_commits fuel page) as [[[| c cs'] |] | e |] eqn:Hpage;
    try done; try (split; [done |]; split; [by repeat constructor | done]).
  cbn zeta in *.
  destruct (io_res (run_page fuel (sched page) (c :: cs') self)) as [self1 | e |] eqn:Hpg;
    [| done | done].
  pose proof (run_page_accounts _ _ _ _ _ Hpg) as [Hext _].
  assert (extends self1 self') as Hext'.
  { destruct (stop_here self1 (c :: cs')); cbn [io_res] in Hr;
      [injection Hr as <-; apply extends_refl | by eapply process_commits_loop_extends]. }
  assert (∀ commit, commit ∈ c :: cs' → already_processed again commit) as Hall.
  { intros commit Hin. apply Hsub. eapply extends_processed; [done |].
    eapply accounted_processed; [done | done |]. by eapply Hurls. }
  destruct (run_page_skips fuel (sched' page) (c :: cs') again Hall)
    as (Hpg' & Hskips).
  apply skips_item_quiet in Hskips.
  pose proof (fetched_pages_worker _ (run_page_log fuel (sched page) (c :: cs') self)) as Hw.
  pose proof (fetched_pages_worker _ (run_page_log fuel (sched' page) (c :: cs') again))
    as Hw'.
  rewrite Hpg'.
  assert (commit_hash_end again = commit_hash_end self1) as Hend1.
  { destruct (extends_config _ _ Hext) as [-> _]. done. }
  rewrite (stop_here_config again self1 _ Hend1).
  destruct (stop_here self1 (c :: cs')); cbn [io_log io_res] in *.
  - split; [done |]. split.
    + constructor; [done |]. apply Forall_app. split; [done | by repeat constructor].
    + by rewrite !fetched_pages_fetch, !fetched_pages_app, Hw, Hw'.
  - destruct (IH (S page) self1 Hr Hend1 Hsub) as (Hr' & Hquiet & Hpages).
    split; [done |]. split.
    + constructor; [done |]. apply Forall_app. split; [done |].
      constructor; [done |]. by constructor.
    + by rewrite !fetched_pages_fetch, !fetched_pages_app, Hw, Hw', Hpages.
Qed.

(** Resuming after a harvest that ran to its end adds nothing: when every
    listed item has an html_url that ends in its sha, a second run from the
    progress the first run returned lists the same pages, skips every item
    (it merges nothing and dumps nothing, whatever the scheduler), and
    returns the very same progress. *)
Theorem resume_adds_nothing n fuel sched sched' self self' :
  urls_end_in_sha fuel →
  io_res (process_commits n fuel sched self) = Ret self' →
  io_res (process_commits n fuel sched' self') = Ret self' ∧
  Forall quiet (io_log (process_commits n fuel sched' self')) ∧
  fetched_pages (io_log (process_commits n fuel sched' self'))
    = fetched_pages (io_log (process_commits n fuel sched self)).
Proof.
  intros Hurls Hr. unfold process_commits in *.
  eapply process_commits_loop_rerun; [done | done | | done].
  apply process_commits_loop_extends in Hr. by destruct (extends_config _ _ Hr) as [-> _].
Qed.

(** ** The scheduler only decides the order *)

Lemma NoDup_fmap_elem {A B} (f : A → B) (l : list A) (x y : A) :
  NoDup (f <$> l) → x ∈ l → y ∈ l → f x = f y → x = y.
Proof.
  intros Hnodup Hx Hy Heq.
  apply list_elem_of_lookup in Hx as [i Hi]. apply list_elem_of_lookup in Hy as [j Hj].
  assert (i = j) as <-; [| congruence].
  eapply NoDup_lookup; [exact Hnodup | |]; rewrite list_lookup_fmap;
    [by rewrite Hi | rewrite Hj; simpl; by rewrite Heq].
Qed.

Lemma sched_step_records_from fuel cs self0 ev ps ps' :
  page_distinct cs →
  bijection_inv cs ps ∧ extends self0 (ps_self ps) ∧ records_from cs self0 ps →
  io_res (sched_step fuel cs ev ps) = Ret ps' →
  bijection_inv cs ps' ∧ extends self0 (ps_self ps') ∧ records_from cs self0 ps'.
Proof.
  intros Hdistinct (Hbij & Hext & Hfrom) Hr.
  split; [by eapply sched_step_bijection_inv |].
  destruct Hbij as (_ & _ & Hdone). destruct ev as [i | i].
  - destruct (cs !! i) as [commit |] eqn:Hc;
      [| rewrite sched_step_run_idle in * by auto; by injection Hr as <-].
    destruct (decide (ps_futures ps !! i = Some Pending)) as [Hf | Hf];
      [| rewrite sched_step_run_idle in * by auto; by injection Hr as <-].
    rewrite (sched_step_run _ _ _ _ commit) in * by done. by injection Hr as <-.
  - destruct (ps_futures ps !! i) as [[| r |] |] eqn:Hf;
      try (rewrite sched_step_collect_idle in * by (intros ?; congruence);
           by injection Hr as <-).
    rewrite (sched_step_collect _ _ _ _ r) in * by done.
    destruct (Hdone i r Hf) as (commit & Hc & Hinfo).
    destruct r as [[info |] | e |]; [| | done | done]; injection Hr as <-;
      [| done].
    split; [by apply extends_merge |].
    intros info' Hin. cbn [ps_self commits_info set_progress] in Hin.
    apply elem_of_app in Hin as [Hin | Hin]; [by apply Hfrom |].
    apply list_elem_of_singleton in Hin. subst info'.
    destruct (Hinfo info eq_refl) as [-> Hfresh]. right. exists commit.
    split; [by eapply list_elem_of_lookup_2 |]. split; [done |].
    intros Hin0. apply Hfresh. by eapply extends_processed.
Qed.

(** On a page of distinct items the scheduler only decides the order of
    the new records: whatever it does, the page appends one record for each
    item that was not yet processed, in some order, and [processed_commits]
    gains the shas of the page. *)
Theorem run_page_schedule_independent fuel sched cs self self' :
  page_distinct cs → no_orphans self → one_record_each self →
  io_res (run_page fuel sched cs self) = Ret self' →
  ∃ new,
    commits_info self' = commits_info self ++ new ∧
    new ≡ₚ normalized <$> fresh_items self cs ∧
    processed_commits self' = processed_commits self ∪ list_to_set (sha <$> cs).
Proof.
  intros Hdistinct Hno Hone Hr.
  pose proof (run_page_reported _ _ _ _ _ Hr) as Hrep.
  pose proof (run_page_accounts _ _ _ _ _ Hr) as [Hext Hacc].
  assert (one_record_each self' ∧ records_from cs self (mk_page self' [])) as [Hone' Hfrom].
  { unfold run_page in Hr.
    apply io_bind_returns in Hr as (ps & Hr & Hret & _). injection Hret as <-.
    apply (run_schedule_invariant fuel cs
             (λ _ ps, bijection_inv cs ps ∧ extends self (ps_self ps) ∧
                      records_from cs self ps)) with (lg := []) in Hr.
    - destruct Hr as ((_ & ? & _) & _ & ?). done.
    - intros _ ps1 ev ps2. by apply sched_step_records_from.
    - split; [| split; [apply extends_refl | by left]].
      split; [done |]. split; [done |]. intros i r. simpl. intros Hl.
      apply lookup_replicate in Hl as [? _]. done. }
  destruct Hdistinct as [Hnodup Hurl]. destruct Hext as [new ->].
  unfold one_record_each, records_from in *. simpl in *.
  rewrite fmap_app in Hone'. apply NoDup_app in Hone' as (_ & Hdisjoint & Hnew).
  assert (∀ commit, commit ∈ cs → ident (normalized commit) = sha commit) as Hid.
  { intros commit Hin. by apply Hurl. }
  assert (∀ info, info ∈ new →
            ∃ commit, commit ∈ cs ∧ info = normalized commit ∧
                      sha commit ∉ processed_commits self) as Hnew_from.
  { intros info Hin. destruct (Hfrom info) as [Hold | ?]; [solve_set | | done].
    exfalso. apply (Hdisjoint (ident info)); by apply list_elem_of_fmap_2. }
  assert (∀ commit, commit ∈ cs → sha commit ∉ processed_commits self →
                    normalized commit ∈ new) as Hfresh_new.
  { intros commit Hin Hfresh.
    assert (sha commit ∈ (list_to_set (ident <$> new) : gset string)) as Hsha.
    { destruct (Hacc commit Hin) as [Hs | (_ & _ & Hp)].
      - specialize (Hrep (sha commit) (or_introl Hs)). simpl in Hrep. solve_set.
      - rewrite Hid in Hp by done. simpl in Hp. solve_set. }
    apply elem_of_list_to_set, list_elem_of_fmap in Hsha as (info & Hsha & Hinfo).
    destruct (Hnew_from info Hinfo) as (commit' & Hin' & -> & _).
    rewrite Hid in Hsha by done.
    by rewrite (NoDup_fmap_elem sha cs commit commit' Hnodup Hin Hin' Hsha). }
  exists new. split; [done |]. split.
  - apply NoDup_Permutation.
    + by apply NoDup_fmap_1 in Hnew.
    + apply NoDup_fmap_2_strong.
      * intros x y Hx Hy Heq. unfold fresh_items in Hx, Hy.
        apply list_elem_of_filter in Hx as [_ Hx]. apply list_elem_of_filter in Hy as [_ Hy].
        apply (NoDup_fmap_elem sha cs x y Hnodup Hx Hy).
        by rewrite <- (Hid x Hx), <- (Hid y Hy), Heq.
      * apply NoDup_filter. by apply NoDup_fmap_1 in Hnodup.
    + intros info. unfold fresh_items. rewrite list_elem_of_fmap. split.
      * intros Hin. destruct (Hnew_from info Hin) as (commit & Hc & -> & Hfresh).
        exists commit. split; [done |]. by apply list_elem_of_filter.
      * intros (commit & -> & Hc). apply list_elem_of_filter in Hc as [Hfresh Hc].
        by apply Hfresh_new.
  - apply set_eq. intros s.
    rewrite !elem_of_union, !elem_of_list_to_set, !list_elem_of_fmap. split.
    + intros [(info & -> & Hin) | Hin]; [| by left].
      destruct (Hnew_from info Hin) as (commit & Hc & -> & _).
      right. exists commit. by rewrite Hid.
    + intros [Hin | (commit & -> & Hc)]; [by right |].
      destruct (decide (sha commit ∈ processed_commits self)) as [Hold | Hfresh];
        [by right |].
      left. exists (normalized commit). split; [by rewrite Hid | by apply Hfresh_new].
Qed.

(** ** When a run returns, and what it then holds *)

Lemma process_commits_loop_returns n fuel sched page self last :
  (page ≤ last)%nat → (last - page < n)%nat →
  (∀ q, (page ≤ q ≤ last)%nat → page_responds fuel q) →
  page_ends_run fuel last →
  ∃ self', io_res (process_commits_loop n fuel sched page self) = Ret self'.
Proof.
  revert page self. induction n as [| n IH]; intros page self Hle Hn Hresp Hend; [lia |].
  rewrite process_commits_loop_unfold.
  destruct (Hresp page) as (data & Hpage & Hwork); [lia |]. rewrite Hpage.
  destruct data as [[| c cs'] |]; [by eexists | | by eexists]. cbn zeta.
  destruct (run_page_returns fuel (sched page) (c :: cs') self) as [self1 Hr];
    [by apply Hwork |].
  rewrite Hr. destruct (stop_here self1 (c :: cs')); [by eexists |]. cbn [io_res].
  assert (page ≠ last) as Hne.
  { intros ->. destruct Hend as [Hend | Hend]; congruence. }
  apply IH; [lia | lia | | done]. intros q Hq. apply Hresp. lia.
Qed.

(** A run over a listing that ends returns: when page [last] comes back
    empty or with no data, the listing calls up to it and the detail calls
    of their items return, and the loop has [last] turns to take, the run
    returns a fetcher. *)
Theorem process_commits_returns n fuel sched self last :
  (1 ≤ last ≤ n)%nat →
  (∀ q, (1 ≤ q ≤ last)%nat → page_responds fuel q) →
  page_ends_run fuel last →
  ∃ self', io_res (process_commits n fuel sched self) = Ret self'.
Proof.
  intros Hlast Hresp Hend. unfold process_commits.
  apply (process_commits_loop_returns n fuel sched 1 self last); [lia | lia | done | done].
Qed.

Lemma run_page_bijection fuel sched cs self self' :
  page_distinct cs → no_orphans self → one_record_each self →
  io_res (run_page fuel sched cs self) = Ret self' →
  no_orphans self' ∧ one_record_each self'.
Proof.
  intros Hdistinct Hno Hone Hr. unfold run_page in Hr.
  apply io_bind_returns in Hr as (ps & Hr & Hret & _). injection Hret as <-.
  apply (run_schedule_invariant fuel cs (λ _, bijection_inv cs)) with (lg := []) in Hr.
  - by destruct Hr as (? & ? & _).
  - intros _ ps1 ev ps2. by apply sched_step_bijection_inv.
  - split; [done |]. split; [done |]. intros i r. simpl. intros Hl.
    apply lookup_replicate in Hl as [? _]. done.
Qed.

Lemma process_commits_loop_bijection n fuel sched page self self' :
  pages_distinct fuel → no_orphans self → one_record_each self →
  io_res (process_commits_loop n fuel sched page self) = Ret self' →
  no_orphans self' ∧ one_record_each self'.
Proof.
  intros Hpages. revert page self. induction n as [| n IH]; intros page self Hno Hone;
    [done |].
  rewrite process_commits_loop_unfold.
  destruct (fetch_commits fuel page) as [[[| c cs'] |] | e |] eqn:Hpage; cbn zeta;
    try done; try by intros [= <-].
  destruct (io_res (run_page fuel (sched page) (c :: cs') self)) as [self1 | e |] eqn:Hr;
    [| done | done].
  destruct (run_page_bijection _ _ _ _ _ (Hpages _ _ Hpage) Hno Hone Hr) as [Hno1 Hone1].
  destruct (stop_here self1 (c :: cs')); cbn [io_res]; [by intros [= <-] |].
  by apply IH.
Qed.

(** A harvest keeps one record for each identifier: when every listed page
    lists distinct items whose html_urls end in their shas, a run that
    starts from a progress without orphans and without two records under
    one identifier returns such a progress, and no record twice, whatever
    the scheduler does and also when an item is listed on two pages. *)
Theorem harvest_has_one_record_each n fuel sched self self' :
  pages_distinct fuel → no_orphans self → one_record_each self →
  io_res (process_commits n fuel sched self) = Ret self' →
  no_orphans self' ∧ one_record_each self' ∧ NoDup (commits_info self').
Proof.
  intros Hpages Hno Hone Hr.
  destruct (process_commits_loop_bijection _ _ _ _ _ _ Hpages Hno Hone Hr) as [Hno' Hone'].
  split; [done |]. split; [done |]. by apply NoDup_fmap_1 in Hone'.
Qed.

(** ** The stop identifier and the checkpoints *)


(** Every item of a page that was processed is done in the progress the
    page leaves. *)
Lemma run_page_done fuel sched cs self self' :
  io_res (run_page fuel sched cs self) = Ret self' →
  ∀ commit, commit ∈ cs →
    item_done (io_log (run_page fuel sched cs self))
      (commits_info self') (processed_commits self') commit.
Proof.
  intros Hr commit Hin.
  pose proof (run_page_reported _ _ _ _ _ Hr) as Hrep.
  destruct (run_page_accounts _ _ _ _ _ Hr) as [_ Hacc].
  destruct (Hacc commit Hin) as [Hs | Hm]; [left | by right].
  split; [done |]. apply Hrep. by left.
Qed.






Lemma app_split_at {A} (l1 l2 pre post : list A) (x : A) :
  l1 ++ l2 = pre ++ x :: post → x ∉ l1 →
  ∃ pre', pre = l1 ++ pre' ∧ l2 = pre' ++ x :: post.
Proof.
  revert pre. induction l1 as [| a l1 IH]; intros pre Heq Hnot.
  - by exists pre.
  - destruct pre as [| b pre]; simpl in Heq.
    + injection Heq as -> _. exfalso. apply Hnot. left.
    + injection Heq as -> Heq. destruct (IH pre Heq) as (pre' & -> & ->).
      * intros Hin. apply Hnot. by right.
      * by exists pre'.
Qed.

Lemma process_commits_loop_order n fuel sched page self pre q post :
  io_log (process_commits_loop n fuel sched page self)
    = pre ++ EvFetchCommits q :: post →
  (pre = [] ∧ q = page) ∨
  ∃ m, q = S m ∧ (page ≤ m)%nat ∧ checkpointed fuel pre m.
Proof.
  revert page self pre. induction n as [| n IH]; intros page self pre Hlog.
  { by destruct pre. }
  rewrite process_commits_loop_unfold in Hlog.
  destruct pre as [| ev pre].
  { left. split; [done |].
    destruct (fetch_commits fuel page) as [[[| c cs'] |] | e |]; cbn zeta in Hlog;
      try (by injection Hlog as ->).
    destruct (io_res (run_page fuel (sched page) (c :: cs') self)) as [self1 | e |];
      [destruct (stop_here self1 (c :: cs')) | |]; by injection Hlog as ->. }
  right.
  assert (∀ lg, EvFetchCommits page :: lg = (ev :: pre) ++ EvFetchCommits q :: post →
                fetched_pages lg = [] → False) as Hnot.
  { intros lg Heq Hnil. injection Heq as _ Heq. rewrite Heq in Hnil.
    rewrite fetched_pages_app, fetched_pages_fetch in Hnil.
    symmetry in Hnil. by apply app_cons_not_nil in Hnil. }
  destruct (fetch_commits fuel page) as [[[| c cs'] |] | e |] eqn:Hpage;
    try (exfalso; by apply (Hnot [] Hlog)).
  cbn zeta in Hlog.
  pose proof (run_page_log fuel (sched page) (c :: cs') self) as Hwork.
  pose proof (fetched_pages_worker _ Hwork) as Hw.
  destruct (io_res (run_page fuel (sched page) (c :: cs') self)) as [self1 | e |] eqn:Hpg;
    try (exfalso; by apply (Hnot _ Hlog)).
  pose proof (run_page_done _ _ _ _ _ Hpg) as Hacc.
  destruct (stop_here self1 (c :: cs')); cbn [io_log] in Hlog.
  { exfalso. apply (Hnot _ Hlog). by rewrite fetched_pages_app, Hw. }
  injection Hlog as <- Hlog.
  apply app_split_at in Hlog as (pre1 & -> & Hlog).
  2: { intros Hin. apply elem_of_fetched_pages in Hin. rewrite Hw in Hin.
       by apply elem_of_nil in Hin. }
  destruct pre1 as [| ev1 pre1]; [done |]. injection Hlog as <- Hlog.
  destruct pre1 as [| ev2 pre1]; [done |]. injection Hlog as <- Hlog.
  destruct (IH _ _ _ Hlog) as [[-> ->] | (m & -> & Hm & Hcp)].
  - exists page. split; [done |]. split; [lia |].
    exists [], (io_log (run_page fuel (sched page) (c :: cs') self)), (c :: cs'),
      (commits_info self1), (processed_commits self1).
    done.
  - exists m. split; [done |]. split; [lia |].
    destruct Hcp as (before & work & cs & infos & processed & -> & Hw' & Hm' & Hacc').
    exists (EvFetchCommits page :: io_log (run_page fuel (sched page) (c :: cs') self)
              ++ [save_progress_event self1; EvSleep 6] ++ before), work, cs,
      infos, processed.
    split; [| done]. simpl. by rewrite <- !app_assoc.
Qed.

(** C7. In every run, finished or not, the pages are listed in the order
    1, 2, 3, ...; and whenever the listing of a page N+1 is called, the log
    before that call ends with page N's block: the call for page N, the
    work on its items, the [save_progress] of a progress that holds every
    item of page N (its record, filed under its identifier, or its sha when
    it was skipped as already processed), and the cooldown. *)
Theorem checkpoint_precedes_next_page n fuel sched self :
  (∃ k, fetched_pages (io_log (process_commits n fuel sched self)) = seq 1 k) ∧
  ∀ pre q post,
    io_log (process_commits n fuel sched self) = pre ++ EvFetchCommits q :: post →
    (pre = [] ∧ q = 1%nat) ∨
    ∃ N, q = S N ∧ (1 ≤ N)%nat ∧ checkpointed fuel pre N.
Proof.
  split; [apply process_commits_loop_pages |].
  intros pre q post Hlog. by eapply process_commits_loop_order.
Qed.

End Fetcher.

(** ** The progress file *)

Lemma append_cons (c : ascii) (s t : string) : String c s +:+ t = String c (s +:+ t).
Proof. reflexivity. Qed.

Lemma append_nil_r (s : string) : s +:+ "" = s.
Proof. induction s as [| c s IH]; [done |]. by rewrite append_cons, IH. Qed.

Lemma append_assoc (s t u : string) : (s +:+ t) +:+ u = s +:+ (t +:+ u).
Proof. induction s as [| c s IH]; [done |]. by rewrite !append_cons, IH. Qed.

Lemma length_append (s t : string) :
  String.length (s +:+ t) = (String.length s + String.length t)%nat.
Proof. induction s as [| c s IH]; [done |]. rewrite append_cons. simpl. by rewrite IH. Qed.

Lemma append_inv_head (s t1 t2 : string) : s +:+ t1 = s +:+ t2 → t1 = t2.
Proof.
  induction s as [| c s IH]; [done |]. rewrite !append_cons. intros [= Heq]. by apply IH.
Qed.

Lemma progress_json_not_empty (self : fetcher) : progress_json self ≠ "".
Proof. unfold progress_json, json_dict. intros H. discriminate H. Qed.

(** *** The operations of a save *)

Lemma run_appends (chunks : list string) (written : string) :
  run_ops (Append <$> chunks) (Some written) = Some (written +:+ concat_chunks chunks).
Proof.
  revert written. induction chunks as [| chunk chunks IH]; intros written.
  - simpl. by rewrite append_nil_r.
  - change (run_ops (Append <$> chunk :: chunks) (Some written))
      with (run_ops (Append <$> chunks) (Some (written +:+ chunk))).
    rewrite IH. cbn [concat_chunks]. by rewrite append_assoc.
Qed.

Lemma concat_chunks_app (l1 l2 : list string) :
  concat_chunks (l1 ++ l2) = concat_chunks l1 +:+ concat_chunks l2.
Proof. induction l1 as [| c l1 IH]; [done |]. simpl. by rewrite IH, append_assoc. Qed.

Lemma save_progress_until_succ (k : nat) (chunks : list string) (file : option string) :
  save_progress_until (S k) chunks file = Some (concat_chunks (take k chunks)).
Proof.
  unfold save_progress_until, save_ops. rewrite firstn_cons, <- fmap_take.
  unfold run_ops. simpl. apply run_appends.
Qed.

Lemma save_progress_complete (self : fetcher) (file : option string) :
  save_progress self file = Some (progress_json self).
Proof. reflexivity. Qed.

(** *** The reader reads what the writer wrote *)

Lemma expect_app (lit rest : string) : expect lit (lit +:+ rest) = Some rest.
Proof.
  induction lit as [| c lit IH]; [by destruct rest |].
  rewrite append_cons. simpl. by rewrite Ascii.eqb_refl.
Qed.

Lemma read_chars_escape (c : ascii) (tail : string) :
  read_chars (json_escape_char c +:+ tail) = cons_char c (read_chars tail).
Proof. destruct c as [[] [] [] [] [] [] [] []]; reflexivity. Qed.

Lemma read_chars_escaped (s rest : string) :
  read_chars (json_escape s +:+ String quote_char rest) = Some (s, rest).
Proof.
  induction s as [| c s IH]; [reflexivity |].
  cbn [json_escape]. by rewrite append_assoc, read_chars_escape, IH.
Qed.

Lemma read_string_json (s rest : string) :
  read_string (json_string s +:+ rest) = Some (s, rest).
Proof.
  unfold json_string. rewrite append_cons, append_assoc.
  cbn [read_string]. rewrite Ascii.eqb_refl. apply read_chars_escaped.
Qed.

Lemma read_member_json (key value rest : string) :
  read_member key (json_string key +:+ ": " +:+ json_string value +:+ rest)
  = Some (value, rest).
Proof.
  unfold read_member. rewrite <- (append_assoc (json_string key) ": ").
  rewrite expect_app. apply read_string_json.
Qed.

Lemma expect_bracket_comma (s : string) : expect "]" (", " +:+ s) = None.
Proof. reflexivity. Qed.

Lemma read_commit_info_json (info : commit_info) (rest : string) :
  read_commit_info (json_commit_info info +:+ rest) = Some (info, rest).
Proof.
  destruct info as [commit_url author_name author_url commit_date commit_message].
  unfold json_commit_info, json_dict, json_member, read_commit_info.
  cbn [json_join Commit_URL Author_Name Author_URL Commit_Date Commit_Message].
  rewrite !append_assoc.
  rewrite (expect_app "{"). cbn [mbind option_bind].
  rewrite read_member_json. cbn [mbind option_bind].
  rewrite (expect_app ", "). cbn [mbind option_bind].
  rewrite read_member_json. cbn [mbind option_bind].
  rewrite (expect_app ", "). cbn [mbind option_bind].
  rewrite read_member_json. cbn [mbind option_bind].
  rewrite (expect_app ", "). cbn [mbind option_bind].
  rewrite read_member_json. cbn [mbind option_bind].
  rewrite (expect_app ", "). cbn [mbind option_bind].
  rewrite read_member_json. cbn [mbind option_bind].
  rewrite (expect_app "}"). reflexivity.
Qed.

Lemma read_items_json {A} (enc : A → string) (read : string → option (A * string))
  (l : list A) (rest : string) (fuel : nat) :
  (∀ a rest, read (enc a +:+ rest) = Some (a, rest)) →
  l ≠ [] → (length l ≤ fuel)%nat →
  read_items read fuel (json_join (enc <$> l) +:+ "]" +:+ rest) = Some (l, rest).
Proof.
  intros read_enc. revert fuel. induction l as [| a l IH]; intros fuel Hne Hlen; [done |].
  destruct fuel as [| fuel]; [simpl in Hlen; lia |].
  destruct l as [| b l].
  - cbn [fmap list_fmap json_join read_items]. rewrite read_enc.
    by rewrite (expect_app "]").
  - change (json_join (enc <$> a :: b :: l))
      with (enc a +:+ ", " +:+ json_join (enc <$> b :: l)).
    rewrite !append_assoc. cbn [read_items]. rewrite read_enc.
    rewrite expect_bracket_comma, (expect_app ", ").
    rewrite IH; [done | done | simpl in *; lia].
Qed.

Lemma read_list_json {A} (enc : A → string) (read : string → option (A * string))
  (l : list A) (rest : string) (fuel : nat) :
  (∀ a rest, read (enc a +:+ rest) = Some (a, rest)) →
  (∀ a rest, expect "]" (enc a +:+ rest) = None) →
  (length l ≤ fuel)%nat →
  read_list read fuel (json_list (enc <$> l) +:+ rest) = Some (l, rest).
Proof.
  intros read_enc enc_start Hlen. unfold read_list, json_list. rewrite !append_assoc.
  rewrite (expect_app "[").
  destruct l as [| a l]; [reflexivity |].
  assert (expect "]" (json_join (enc <$> a :: l) +:+ "]" +:+ rest) = None) as ->.
  { destruct l as [| b l]; [apply enc_start |].
    change (json_join (enc <$> a :: b :: l))
      with (enc a +:+ ", " +:+ json_join (enc <$> b :: l)).
    rewrite append_assoc. apply enc_start. }
  by apply read_items_json.
Qed.

Lemma json_join_length {A} (enc : A → string) (l : list A) :
  (∀ a, (1 ≤ String.length (enc a))%nat) →
  (length l ≤ String.length (json_join (enc <$> l)))%nat.
Proof.
  intros enc_length. induction l as [| a l IH]; [done |].
  destruct l as [| b l]; [simpl; apply enc_length |].
  change (json_join (enc <$> a :: b :: l))
    with (enc a +:+ ", " +:+ json_join (enc <$> b :: l)).
  rewrite !length_append. pose proof (enc_length a). simpl in *. lia.
Qed.

Lemma read_progress_json (self : fetcher) (rest : string) (fuel : nat) :
  (length (commits_info self) ≤ fuel)%nat →
  (length (elements (processed_commits self)) ≤ fuel)%nat →
  read_progress fuel (progress_json self +:+ rest)
  = Some (mk_progress_data (Some (commits_info self))
            (Some (elements (processed_commits self))), rest).
Proof.
  intros Hinfos Hids.
  unfold progress_json, json_dict, json_member, read_progress. cbn [json_join].
  rewrite !append_assoc.
  rewrite <- (append_assoc (json_string "commits_info") ": "),
    <- (append_assoc "{" (json_string "commits_info" +:+ ": ")).
  rewrite expect_app. cbn [mbind option_bind].
  rewrite (read_list_json json_commit_info read_commit_info);
    [| apply read_commit_info_json | done | done].
  cbn [mbind option_bind].
  rewrite <- (append_assoc (json_string "processed_commits") ": "),
    <- (append_assoc ", " (json_string "processed_commits" +:+ ": ")).
  rewrite expect_app. cbn [mbind option_bind].
  rewrite (read_list_json json_string read_string);
    [| apply read_string_json | done | done].
  cbn [mbind option_bind].
  by rewrite (expect_app "}").
Qed.

Lemma json_string_length (s : string) : (1 ≤ String.length (json_string s))%nat.
Proof. simpl. lia. Qed.

Lemma json_commit_info_length (info : commit_info) :
  (1 ≤ String.length (json_commit_info info))%nat.
Proof. simpl. lia. Qed.

Lemma progress_json_length (self : fetcher) (rest : string) :
  (length (commits_info self) ≤ String.length (progress_json self +:+ rest))%nat ∧
  (length (elements (processed_commits self))
     ≤ String.length (progress_json self +:+ rest))%nat.
Proof.
  unfold progress_json, json_dict, json_member, json_list. cbn [json_join].
  rewrite !length_append.
  pose proof (json_join_length json_commit_info (commits_info self)
                json_commit_info_length).
  pose proof (json_join_length json_string (elements (processed_commits self))
                json_string_length).
  lia.
Qed.

(** The text of a progress, with anything after it, is read back as that
    progress and what is after it. *)
Lemma read_progress_written (self : fetcher) (rest : string) :
  read_progress (String.length (progress_json self +:+ rest)) (progress_json self +:+ rest)
  = Some (mk_progress_data (Some (commits_info self))
            (Some (elements (processed_commits self))), rest).
Proof.
  destruct (progress_json_length self rest). by apply read_progress_json.
Qed.


(** The text determines the progress, and no text of a progress is the
    start of the text of another. *)
Lemma progress_json_prefix_free (self self2 : fetcher) (rest : string) :
  progress_json self2 +:+ rest = progress_json self →
  rest = "" ∧ commits_info self2 = commits_info self ∧
  processed_commits self2 = processed_commits self.
Proof.
  intros Heq.
  pose proof (read_progress_written self2 rest) as H2.
  pose proof (read_progress_written self "") as H1.
  rewrite Heq in H2. rewrite append_nil_r in H1. rewrite H1 in H2.
  injection H2 as Hinfos Hids Hrest.
  split; [done |]. split; [done |].
  by rewrite <- (list_to_set_elements_L (processed_commits self)), Hids,
    list_to_set_elements_L.
Qed.

(** C5, as the code has it. [save_progress] rewrites the progress file in
    place. A process that stops before the [open] leaves the previous file;
    one that stops right after it leaves an empty file, which the new text
    never is, and a [load_progress] that finds it raises; one that stops
    later leaves a prefix of the new text, and that prefix is the text of a
    progress only when nothing of the new text is missing, and then of no
    other progress than the new one. Once every piece is written the file
    is the complete new text, as it is after a save that runs to its end. *)
Theorem save_progress_rewrites_in_place (self : fetcher) (file : option string)
  (chunks : list string) :
  chunks_of self chunks →
  save_progress_until 0 chunks file = file ∧
  save_progress_until 1 chunks file = Some "" ∧
  progress_json self ≠ "" ∧
  (∀ json_load self0,
     json_load "" = None →
     load_progress json_load self0 (save_progress_until 1 chunks file)
       = Raise ValueError) ∧
  (∀ k, (1 ≤ k)%nat →
     ∃ written rest,
       save_progress_until k chunks file = Some written ∧
       written +:+ rest = progress_json self ∧
       ∀ self2, written = progress_json self2 →
         rest = "" ∧ commits_info self2 = commits_info self ∧
         processed_commits self2 = processed_commits self) ∧
  (∀ k, (length chunks < k)%nat →
     save_progress_until k chunks file = Some (progress_json self)) ∧
  save_progress self file = Some (progress_json self).
Proof.
  intros Hchunks. unfold chunks_of in Hchunks.
  split; [done |]. split; [by rewrite save_progress_until_succ |].
  split; [apply progress_json_not_empty |]. split.
  { intros json_load self0 Hempty. rewrite save_progress_until_succ. simpl.
    by rewrite Hempty. }
  split; [| split; [| apply save_progress_complete]].
  - intros [| k] Hk; [lia |]. rewrite save_progress_until_succ.
    exists (concat_chunks (take k chunks)), (concat_chunks (drop k chunks)).
    split; [done |].
    assert (concat_chunks (take k chunks) +:+ concat_chunks (drop k chunks)
            = progress_json self) as Hsplit.
    { by rewrite <- concat_chunks_app, take_drop. }
    split; [done |]. intros self2 Hwritten. rewrite Hwritten in Hsplit.
    by apply progress_json_prefix_free.
  - intros [| k] Hk; [lia |]. rewrite save_progress_until_succ.
    rewrite take_ge by lia. by rewrite Hchunks.
Qed.

(** ** The claims on the sample data *)

(** C5 fails as stated: a stop right after the [open] leaves a file that is
    neither the previous progress nor the new one. *)
Lemma save_progress_not_atomic :
  ¬ ∀ k chunks self file,
      chunks_of self chunks →
      save_progress_until k chunks file = file ∨
      save_progress_until k chunks file = Some (progress_json self).
Proof.
  intros Hatomic.
  destruct (Hatomic 1%nat [progress_json Sample.fetcher1] Sample.fetcher1
              (Some (progress_json Sample.fetcher0))) as [H | H].
  - apply append_nil_r.
  - rewrite save_progress_until_succ in H. injection H as H.
    by apply (progress_json_not_empty Sample.fetcher0).
  - rewrite save_progress_until_succ in H. injection H as H.
    by apply (progress_json_not_empty Sample.fetcher1).
Qed.

(** C5 on the saved [fetcher1], written in two pieces over the saved
    [fetcher0]: after the first piece the file is the first twenty
    characters of the new text. *)
Lemma save_progress_rewrites_in_place_witness :
  chunks_of Sample.fetcher1 Sample.chunks ∧
  save_progress_until 2 Sample.chunks (Some (progress_json Sample.fetcher0))
    = Some (substring 0 20 (progress_json Sample.fetcher1)) ∧
  save_progress_until 3 Sample.chunks (Some (progress_json Sample.fetcher0))
    = Some (progress_json Sample.fetcher1).
Proof.
  assert (chunks_of Sample.fetcher1 Sample.chunks) as Hchunks
    by (vm_compute; reflexivity).
  split; [exact Hchunks |]. split; [vm_compute; reflexivity |].
  destruct (save_progress_rewrites_in_place Sample.fetcher1
              (Some (progress_json Sample.fetcher0)) Sample.chunks Hchunks)
    as (_ & _ & _ & _ & _ & Hall & _).
  apply Hall. simpl. lia.
Defined.



Lemma sample_denied_goes_round page k :
  goes_round int_of_decimal Sample.py_sleep (Sample.listing_denied page k).
Proof.
  split; [reflexivity |]. intros response [= <-].
  eexists. by apply handle_rate_limit_no_header.
Qed.

(** C9 fails as stated: on a listing that answers 403 forever without a
    word on the quota, [fetch_commits] returns for no amount of fuel. *)
Lemma fetch_commits_persistent_403_never_returns :
  ¬ ∃ fuel data,
      fetch_commits int_of_decimal Sample.py_sleep Sample.listing_denied fuel 1
        = Ret data.
Proof.
  intros (fuel & data & Hr). unfold fetch_commits in Hr.
  rewrite request_loop_round_forever in Hr; [done |].
  apply sample_denied_goes_round.
Qed.

(** C9 on page 1 of the sample: a quota 403, on which the loop goes round,
    and then the page. *)
Lemma fetch_commits_returns_iff_witness :
  goes_round int_of_decimal Sample.py_sleep (Sample.listing 1 0) ∧
  fetch_commits int_of_decimal Sample.py_sleep Sample.listing 2 1
    = Ret (Some [Sample.c_a]).
Proof.
  assert (goes_round int_of_decimal Sample.py_sleep (Sample.listing 1 0)) as Hround.
  { split; [reflexivity |]. intros response [= <-].
    exists (mk_verdict true (Some (60 # 1)%Q)). vm_compute; reflexivity. }
  split; [exact Hround |].
  apply (proj1 (fetch_commits_returns_iff int_of_decimal Sample.py_sleep
                  Sample.listing 1)).
  exists 1%nat. split; [lia |]. split; [| done].
  intros j Hj. by replace j with 0%nat by lia.
Defined.

(** C8 fails as stated: the sentinel of an item without author is "N/A". *)
Lemma author_url_sentinel_is_not_unknown :
  ∃ info,
    io_res (process_commit int_of_decimal Sample.py_sleep Sample.detail 1 Sample.fetcher0 Sample.c_a)
      = Ret (Some info) ∧
    author Sample.c_a = None ∧
    Author_URL info ≠ "unknown".
Proof. exists (normalized Sample.c_a). by vm_compute. Qed.

(** C8 on the sample's item without author. *)
Lemma process_commit_record_witness :
  io_res (process_commit int_of_decimal Sample.py_sleep Sample.detail 1 Sample.fetcher0 Sample.c_a)
    = Ret (Some (normalized Sample.c_a)) ∧
  Author_URL (normalized Sample.c_a) = "N/A".
Proof.
  assert (io_res (process_commit int_of_decimal Sample.py_sleep Sample.detail 1 Sample.fetcher0 Sample.c_a)
          = Ret (Some (normalized Sample.c_a))) as Hr by (vm_compute; reflexivity).
  split; [exact Hr |].
  destruct (process_commit_record int_of_decimal Sample.py_sleep Sample.detail 1 Sample.fetcher0
              Sample.c_a _ Hr) as (_ & _ & _ & Hnone & _).
  apply Hnone. reflexivity.
Defined.

(** C1 fails as stated: the detail call of [c_a] returns no data, and yet
    its record is appended and its identifier is marked processed. *)
Lemma failed_detail_fetch_not_dropped :
  fetch_commit_details int_of_decimal Sample.py_sleep Sample.detail 1 Sample.c_a = Ret None ∧
  ∃ self',
    io_res (run_page int_of_decimal Sample.py_sleep Sample.detail 1 [] [Sample.c_a] Sample.fetcher0)
      = Ret self' ∧
    normalized Sample.c_a ∈ commits_info self' ∧
    sha Sample.c_a ∈ processed_commits self'.
Proof.
  split; [vm_compute; reflexivity |].
  exists Sample.fetcher1. split; [vm_compute; reflexivity |].
  split; [apply list_elem_of_here | by vm_compute].
Qed.

(** C1 on the sample. *)
Lemma failed_detail_fetch_is_recorded_witness :
  fetch_commit_details int_of_decimal Sample.py_sleep Sample.detail 1 Sample.c_a = Ret None ∧
  process_commit int_of_decimal Sample.py_sleep Sample.detail 1 Sample.fetcher0 Sample.c_a
    = mk_io [] (Ret (Some (normalized Sample.c_a))).
Proof.
  assert (fetch_commit_details int_of_decimal Sample.py_sleep Sample.detail 1 Sample.c_a = Ret None)
    as Hd by (vm_compute; reflexivity).
  split; [exact Hd |].
  destruct (failed_detail_fetch_is_recorded int_of_decimal Sample.py_sleep Sample.detail 1 []
              [Sample.c_a] Sample.fetcher0 Sample.c_a) as (Hrec & _ & _).
  - apply list_elem_of_here.
  - exact Hd.
  - apply Hrec. apply not_elem_of_empty.
Defined.

Lemma sample_fetcher0_invariant :
  no_orphans Sample.fetcher0 ∧ one_record_each Sample.fetcher0.
Proof.
  split; [| apply NoDup_nil_2].
  intros id. split.
  - intros Hin. by apply not_elem_of_empty in Hin.
  - intros (info & Hin & _). by apply elem_of_nil in Hin.
Qed.


Lemma sample_fetcher1_invariant :
  no_orphans Sample.fetcher1 ∧ one_record_each Sample.fetcher1.
Proof.
  split; [| apply NoDup_singleton].
  intros id. simpl. rewrite elem_of_singleton. split.
  - intros ->. exists (normalized Sample.c_a). split; [left | reflexivity].
  - intros (info & Hin & <-). apply list_elem_of_singleton in Hin. by subst info.
Qed.


(** C3 fails as stated: merging the same record twice appends it twice. *)
Lemma merge_twice_appends_twice :
  ∃ self1 self2,
    io_res (merge_result (Some (normalized Sample.c_a)) Sample.fetcher0) = Ret self1 ∧
    io_res (merge_result (Some (normalized Sample.c_a)) self1) = Ret self2 ∧
    commits_info self1 = [normalized Sample.c_a] ∧
    commits_info self2 = [normalized Sample.c_a; normalized Sample.c_a] ∧
    self2 ≠ self1.
Proof.
  eexists _, _. split; [reflexivity |]. split; [reflexivity |].
  split; [reflexivity |]. split; [reflexivity |].
  intros Heq. apply (f_equal commits_info) in Heq. discriminate Heq.
Qed.

(** C3 on the sample: [c_a] is processed and merged, and then skipped. *)
Lemma process_and_merge_idempotent_witness :
  last_segment (html_url Sample.c_a) = sha Sample.c_a ∧
  io_res (process_commit int_of_decimal Sample.py_sleep Sample.detail 1 Sample.fetcher0 Sample.c_a)
    = Ret (Some (normalized Sample.c_a)) ∧
  io_res (merge_result (Some (normalized Sample.c_a)) Sample.fetcher0)
    = Ret Sample.fetcher1 ∧
  io_res (process_commit int_of_decimal Sample.py_sleep Sample.detail 1 Sample.fetcher1 Sample.c_a)
    = Ret None ∧
  io_res (merge_result None Sample.fetcher1) = Ret Sample.fetcher1.
Proof.
  assert (last_segment (html_url Sample.c_a) = sha Sample.c_a) as Hurl
    by (vm_compute; reflexivity).
  assert (io_res (process_commit int_of_decimal Sample.py_sleep Sample.detail 1 Sample.fetcher0 Sample.c_a)
          = Ret (Some (normalized Sample.c_a))) as Hr by (vm_compute; reflexivity).
  assert (io_res (merge_result (Some (normalized Sample.c_a)) Sample.fetcher0)
          = Ret Sample.fetcher1) as Hm by (vm_compute; reflexivity).
  destruct (process_and_merge_idempotent int_of_decimal Sample.py_sleep Sample.detail 1 Sample.fetcher0
              Sample.c_a _ _ Hurl Hr Hm) as (Hskip & Hnone & _).
  split; [exact Hurl |]. split; [exact Hr |]. split; [exact Hm |].
  split; [exact Hskip | exact Hnone].
Defined.




(** C7 on the sample: what precedes the call for page 2 is the block of
    page 1, whose checkpoint holds the record of [c_a]. *)
Lemma checkpoint_precedes_next_page_witness :
  checkpointed int_of_decimal Sample.py_sleep Sample.listing 2
    [EvFetchCommits 1; EvProcessed "aaa";
     EvSaveProgress [normalized Sample.c_a] {["aaa"]}; EvSleep 6] 1.
Proof.
  destruct (checkpoint_precedes_next_page int_of_decimal Sample.py_sleep Sample.listing
              Sample.detail 5 2 Sample.sched Sample.fetcher0) as [_ Horder].
  destruct (Horder
              [EvFetchCommits 1; EvProcessed "aaa";
               EvSaveProgress [normalized Sample.c_a] {["aaa"]}; EvSleep 6]
              2%nat
              [EvSaveCommitFiles "bbb" (mk_detail [("README.md", Some "+hello")]);
               EvSaveCommitFiles "ccc" (mk_detail [("README.md", Some "+hello")]);
               EvProcessed "ccc"; EvProcessed "bbb";
               save_progress_event Sample.fetcher3; EvSleep 6])
    as [[Hnil _] | (N & HN & _ & Hcp)].
  - vm_compute; reflexivity.
  - discriminate Hnil.
  - injection HN as <-. exact Hcp.
Defined.

(** ** The last segment of a URL *)

Lemma split_slash_not_nil (s : string) : split_slash s ≠ [].
Proof.
  induction s as [| c s IH]; simpl; [done |].
  destruct (Ascii.eqb c "/"); [done |]. by destruct (split_slash s).
Qed.

Lemma split_slash_piece (piece rest : string) :
  no_slash piece = true →
  split_slash (piece +:+ "/" +:+ rest) = piece :: split_slash rest.
Proof.
  induction piece as [| c piece IH]; intros Hno; [done |].
  simpl in Hno. apply andb_true_iff in Hno as [Hc Hno].
  apply negb_true_iff in Hc. rewrite append_cons. simpl. rewrite Hc.
  by rewrite IH.
Qed.

Lemma split_slash_whole (piece : string) :
  no_slash piece = true → split_slash piece = [piece].
Proof.
  induction piece as [| c piece IH]; intros Hno; [done |].
  simpl in Hno. apply andb_true_iff in Hno as [Hc Hno].
  apply negb_true_iff in Hc. simpl. rewrite Hc. by rewrite IH.
Qed.

(** [split("/")] and ["/".join] undo each other: joining the pieces of a
    string gives the string back, the pieces hold no "/", and a non-empty
    list of pieces without "/" is what its join splits into. *)
Theorem split_join_round_trip (s : string) :
  join_slash (split_slash s) = s ∧
  Forall (λ piece, no_slash piece = true) (split_slash s) ∧
  ∀ pieces, pieces ≠ [] → Forall (λ piece, no_slash piece = true) pieces →
            split_slash (join_slash pieces) = pieces.
Proof.
  split; [| split].
  - induction s as [| c s IH]; [done |]. simpl.
    destruct (Ascii.eqb_spec c "/") as [-> | Hc].
    + pose proof (split_slash_not_nil s) as Hne.
      destruct (split_slash s) as [| piece pieces] eqn:Hs; [done |].
      change (join_slash ("" :: piece :: pieces))
        with ("" +:+ "/" +:+ join_slash (piece :: pieces)).
      by rewrite IH.
    + pose proof (split_slash_not_nil s) as Hne.
      destruct (split_slash s) as [| piece pieces] eqn:Hs; [done |].
      destruct pieces as [| piece' pieces].
      * simpl in *. by rewrite IH.
      * change (join_slash (String c piece :: piece' :: pieces))
          with (String c piece +:+ "/" +:+ join_slash (piece' :: pieces)).
        change (join_slash (piece :: piece' :: pieces))
          with (piece +:+ "/" +:+ join_slash (piece' :: pieces)) in IH.
        by rewrite append_cons, IH.
  - induction s as [| c s IH]; [by repeat constructor |]. simpl.
    destruct (Ascii.eqb c "/") eqn:Hc; [by constructor |].
    pose proof (split_slash_not_nil s) as Hne.
    destruct (split_slash s) as [| piece pieces]; [done |].
    apply Forall_cons in IH as [Hp Hps]. constructor; [| done].
    simpl. by rewrite Hc, Hp.
  - intros pieces Hne Hall. destruct pieces as [| piece pieces]; [done |]. clear Hne.
    revert piece Hall. induction pieces as [| piece' pieces IH]; intros piece Hall;
      apply Forall_cons in Hall as [Hp Hall]; [by apply split_slash_whole |].
    change (join_slash (piece :: piece' :: pieces))
      with (piece +:+ "/" +:+ join_slash (piece' :: pieces)).
    rewrite split_slash_piece by done. by rewrite IH.
Qed.

Lemma last_cons_cons {A} (x y : A) (l : list A) (d : A) :
  List.last (x :: y :: l) d = List.last (y :: l) d.
Proof. reflexivity. Qed.

Lemma last_segment_cons (c : ascii) (s : string) :
  last_segment (String c s) =
  if no_slash s then (if Ascii.eqb c "/" then s else String c s) else last_segment s.
Proof.
  unfold last_segment. simpl.
  pose proof (split_slash_not_nil s) as Hne.
  destruct (no_slash s) eqn:Hno.
  - rewrite (split_slash_whole s Hno). by destruct (Ascii.eqb c "/").
  - assert (∃ piece piece' pieces, split_slash s = piece :: piece' :: pieces)
      as (piece & piece' & pieces & Hs).
    { clear Hne. induction s as [| c' s IH]; [done |]. simpl in *.
      destruct (Ascii.eqb c' "/") eqn:Hc'; simpl in Hno.
      - pose proof (split_slash_not_nil s) as Hne.
        destruct (split_slash s) as [| p ps]; [done |]. by eexists _, _, _.
      - destruct (IH Hno) as (p & p' & ps & ->). by eexists _, _, _. }
    rewrite Hs. by destruct (Ascii.eqb c "/").
Qed.

(** The identifier line 209 takes from a URL: it holds no "/", the URL ends
    in it, and it is everything after the last "/": the text after a "/"
    when that text holds no "/" itself, and the whole string when there is
    no "/" at all. *)
Theorem last_segment_spec (s : string) :
  no_slash (last_segment s) = true ∧
  (∃ front, s = front +:+ last_segment s) ∧
  (∀ front t, no_slash t = true → last_segment (front +:+ "/" +:+ t) = t) ∧
  (no_slash s = true → last_segment s = s).
Proof.
  split; [| split; [| split]].
  - induction s as [| c s IH]; [done |]. rewrite last_segment_cons.
    destruct (no_slash s) eqn:Hno; [| done].
    destruct (Ascii.eqb c "/") eqn:Hc; [done |]. simpl. by rewrite Hc, Hno.
  - induction s as [| c s IH]; [by exists "" |]. rewrite last_segment_cons.
    destruct (no_slash s) eqn:Hno.
    + destruct (Ascii.eqb c "/"); [by exists (String c "") | by exists ""].
    + destruct IH as [front Hfront]. exists (String c front).
      by rewrite append_cons, <- Hfront.
  - intros front t Ht. induction front as [| c front IH].
    + change ("" +:+ "/" +:+ t) with (String "/" t).
      by rewrite last_segment_cons, Ht.
    + rewrite append_cons, last_segment_cons.
      assert (no_slash (front +:+ "/" +:+ t) = false) as ->; [| done].
      clear IH. induction front as [| c' front IH]; [done |].
      rewrite append_cons. simpl. by rewrite IH, andb_false_r.
  - intros Hno. unfold last_segment. by rewrite split_slash_whole.
Qed.

(** ** The names and the progress on disk *)

Lemma append_inv_tail (s1 s2 t : string) : s1 +:+ t = s2 +:+ t → s1 = s2.
Proof.
  revert s2. induction s1 as [| c s1 IH]; intros s2 Heq.
  - destruct s2 as [| c2 s2]; [done |].
    apply (f_equal String.length) in Heq. rewrite !length_append in Heq. simpl in Heq. lia.
  - destruct s2 as [| c2 s2].
    + apply (f_equal String.length) in Heq. rewrite !length_append in Heq. simpl in Heq. lia.
    + rewrite !append_cons in Heq. injection Heq as -> Heq. by rewrite (IH s2 Heq).
Qed.

Lemma underscore_split (o1 o2 r1 r2 : string) :
  no_underscore o1 = true → no_underscore o2 = true →
  o1 +:+ String "_" r1 = o2 +:+ String "_" r2 → o1 = o2 ∧ r1 = r2.
Proof.
  revert o2. induction o1 as [| c o1 IH]; intros o2 H1 H2 Heq.
  - destruct o2 as [| c2 o2]; [by injection Heq as -> |].
    rewrite append_cons in Heq. injection Heq as <- _. done.
  - simpl in H1. apply andb_true_iff in H1 as [Hc H1].
    destruct o2 as [| c2 o2].
    + rewrite append_cons in Heq. injection Heq as -> _. done.
    + simpl in H2. apply andb_true_iff in H2 as [_ H2].
      rewrite !append_cons in Heq. injection Heq as -> Heq.
      by destruct (IH o2 H1 H2 Heq) as [-> ->].
Qed.

Lemma progress_file_inj (self1 self2 : fetcher) :
  no_underscore (repo_owner self1) = true → no_underscore (repo_owner self2) = true →
  progress_file self1 = progress_file self2 →
  repo_owner self1 = repo_owner self2 ∧ repo_name self1 = repo_name self2.
Proof.
  unfold progress_file. intros H1 H2 Heq.
  change ("_" +:+ ?x) with (String "_" x) in Heq.
  apply underscore_split in Heq as [Ho Hn]; [| done..].
  split; [done |]. by apply append_inv_tail in Hn.
Qed.

(** The progress file of a repository is not the progress file of another
    one, as long as owners hold no "_" (as on GitHub); the same goes for the
    directory of the file dumps. With a "_" in an owner, two repositories
    can share both. *)
Theorem repository_names_are_distinct :
  (∀ self1 self2,
     no_underscore (repo_owner self1) = true → no_underscore (repo_owner self2) = true →
     progress_file self1 = progress_file self2 ∨
     commit_content_dir self1 = commit_content_dir self2 →
     repo_owner self1 = repo_owner self2 ∧ repo_name self1 = repo_name self2) ∧
  (∃ self1 self2,
     repo_owner self1 ≠ repo_owner self2 ∧
     progress_file self1 = progress_file self2 ∧
     commit_content_dir self1 = commit_content_dir self2).
Proof.
  split.
  - intros self1 self2 H1 H2 [Heq | Heq]; [by apply progress_file_inj |].
    unfold commit_content_dir in Heq.
    change ("_" +:+ ?x) with (String "_" x) in Heq.
    apply underscore_split in Heq as [Ho Hn]; [| done..].
    split; [done |]. by apply append_inv_tail in Hn.
  - exists (mk_fetcher "a_b" "c" 100 None false [] ∅),
           (mk_fetcher "a" "b_c" 100 None false [] ∅).
    by vm_compute.
Qed.



(** Saving the progress of one repository leaves the others alone: when
    owners hold no "_", constructing a fetcher for another repository gives
    the same result after the save as before it. *)
Theorem save_leaves_other_repositories (json_load : string → option progress_data)
  (fs : gmap string string) (self : fetcher) owner name per_page commit_hash_end
  save_files (github_token env_token : option string) :
  no_underscore (repo_owner self) = true → no_underscore owner = true →
  (owner, name) ≠ (repo_owner self, repo_name self) →
  init json_load (save_progress_at self fs) owner name per_page commit_hash_end
    save_files github_token env_token
  = init json_load fs owner name per_page commit_hash_end save_files
      github_token env_token.
Proof.
  intros Hself Howner Hne. unfold init.
  destruct (truthy (if truthy github_token then github_token else env_token)); [| done].
  set (self0 := mk_fetcher _ _ _ _ _ [] ∅).
  assert (progress_file self ≠ progress_file self0) as Hfile.
  { intros Heq. apply progress_file_inj in Heq as [Ho Hn]; [| done..].
    apply Hne. simpl in Ho, Hn. congruence. }
  unfold save_progress_at. simpl. by rewrite lookup_insert_ne.
Qed.

(** ** The paths of the file dump *)

Lemma replace_slash_no_slash (s : string) : no_slash (replace_slash s) = true.
Proof.
  induction s as [| c s IH]; [done |]. simpl. rewrite IH, andb_true_r.
  by destruct (Ascii.eqb_spec c "/") as [-> | Hc]; [| apply negb_true_iff, Ascii.eqb_neq].
Qed.

Lemma no_slash_start (s : string) : no_slash s = true → starts_with_slash s = false.
Proof.
  destruct s as [| c s]; [done |]. simpl. intros H.
  apply andb_true_iff in H as [H _]. by apply negb_true_iff in H.
Qed.

Lemma path_join_relative (dir name : string) :
  starts_with_slash name = false → path_join dir name = dir +:+ separator dir +:+ name.
Proof.
  intros Hrel. unfold path_join, separator. rewrite Hrel.
  by destruct (String.eqb dir "" || ends_with_slash dir).
Qed.

Lemma replace_slash_fixed (s : string) : no_slash s = true → replace_slash s = s.
Proof.
  induction s as [| c s IH]; [done |]. simpl. intros H.
  apply andb_true_iff in H as [Hc H]. apply negb_true_iff in Hc.
  by rewrite Hc, IH.
Qed.

Lemma replace_slash_plain (s : string) :
  no_underscore (replace_slash s) = true → no_slash s = true.
Proof.
  induction s as [| c s IH]; [done |]. simpl. intros H.
  apply andb_true_iff in H as [Hc H]. rewrite (IH H), andb_true_r.
  by destruct (Ascii.eqb c "/").
Qed.

(** On POSIX, the path of the patch of a changed file is the directory of
    its commit, a "/" unless the directory ends in one, and a leaf that
    holds no "/" and is as long as the name, whatever the name (absolute,
    with ".." components) was. The leaf is a name without "/" and "_", such
    as the empty name, "." and "..", which stand for the directory itself
    and its parent, exactly when the name of the file is that name. *)
Theorem patch_path_confined (self : fetcher) (commit_hash filename : string) :
  patch_path self commit_hash filename
    = commit_dir self commit_hash +:+ separator (commit_dir self commit_hash)
        +:+ replace_slash filename ∧
  no_slash (replace_slash filename) = true ∧
  String.length (replace_slash filename) = String.length filename ∧
  (∀ leaf, no_slash leaf = true → no_underscore leaf = true →
     (replace_slash filename = leaf ↔ filename = leaf)) ∧
  replace_slash "../../etc/passwd" = ".._.._etc_passwd" ∧
  patch_path self commit_hash ".." = commit_dir self commit_hash
    +:+ separator (commit_dir self commit_hash) +:+ "..".
Proof.
  assert (∀ name, patch_path self commit_hash name
            = commit_dir self commit_hash +:+ separator (commit_dir self commit_hash)
                +:+ replace_slash name) as Hpath.
  { intros name. unfold patch_path.
    apply path_join_relative, no_slash_start, replace_slash_no_slash. }
  split; [apply Hpath |]. split; [apply replace_slash_no_slash |].
  split; [| split; [| split; [reflexivity | apply Hpath]]].
  - induction filename as [| c s IH]; [done |]. simpl. by rewrite IH.
  - intros leaf Hslash Hunder. split.
    + intros Heq. rewrite <- Heq in Hunder.
      apply replace_slash_plain in Hunder. by rewrite replace_slash_fixed in Heq.
    + intros ->. by apply replace_slash_fixed.
Qed.

(** Two changed files of a commit are dumped to one path, the later patch
    over the earlier one, exactly when their names agree once every "/" is
    read as "_"; and a patch lands on the path of commit_info.json, which is
    written after the patches, exactly when its name is such a reading of
    "commit_info.json". *)
Theorem patch_path_collisions (self : fetcher) (commit_hash f1 f2 : string) :
  (patch_path self commit_hash f1 = patch_path self commit_hash f2 ↔
   replace_slash f1 = replace_slash f2) ∧
  (patch_path self commit_hash f1 = commit_info_path self commit_hash ↔
   replace_slash f1 = "commit_info.json") ∧
  replace_slash "commit/info.json" = "commit_info.json" ∧
  replace_slash "src/a_b.py" = replace_slash "src_a/b.py".
Proof.
  assert (∀ name, starts_with_slash name = false →
            (patch_path self commit_hash f1 = path_join (commit_dir self commit_hash) name ↔
             replace_slash f1 = name)) as Hiff.
  { intros name Hrel. unfold patch_path.
    rewrite !path_join_relative
      by (done || apply no_slash_start, replace_slash_no_slash).
    split; [| by intros ->].
    intros Heq. by apply append_inv_head, append_inv_head in Heq. }
  split; [| split; [| split; reflexivity]].
  - apply Hiff, no_slash_start, replace_slash_no_slash.
  - by apply Hiff.
Qed.

(** ** The further properties on the sample data *)

(** A page that lists the processed [c_a] again is a page of skips. *)
Lemma run_page_all_processed_witness :
  (∀ commit, commit ∈ [Sample.c_a] → already_processed Sample.fetcher1 commit) ∧
  io_res (run_page int_of_decimal Sample.py_sleep Sample.detail 0 [] [Sample.c_a] Sample.fetcher1)
    = Ret Sample.fetcher1.
Proof.
  assert (∀ commit, commit ∈ [Sample.c_a] → already_processed Sample.fetcher1 commit)
    as Hall.
  { intros commit Hin. apply list_elem_of_singleton in Hin. subst commit. by vm_compute. }
  split; [exact Hall |].
  apply (run_page_all_processed int_of_decimal Sample.py_sleep Sample.detail 0 [] [Sample.c_a]
           Sample.fetcher1 Hall).
Defined.



Lemma sample_run_returns :
  io_res (process_commits int_of_decimal Sample.py_sleep Sample.listing Sample.detail 5 2
            Sample.sched Sample.fetcher0) = Ret Sample.fetcher3.
Proof. vm_compute; reflexivity. Qed.

(** The sample run only adds to the empty progress it starts with. *)
Lemma process_commits_only_adds_witness :
  io_res (process_commits int_of_decimal Sample.py_sleep Sample.listing Sample.detail 5 2
            Sample.sched Sample.fetcher0) = Ret Sample.fetcher3 ∧
  commits_info Sample.fetcher0 `prefix_of` commits_info Sample.fetcher3 ∧
  processed_commits Sample.fetcher0 ⊆ processed_commits Sample.fetcher3.
Proof.
  split; [exact sample_run_returns |].
  destruct (process_commits_only_adds int_of_decimal Sample.py_sleep Sample.listing Sample.detail 5 2
              Sample.sched Sample.fetcher0 Sample.fetcher3 sample_run_returns)
    as (Hprefix & Hsub & _).
  split; [exact Hprefix | exact Hsub].
Defined.

(** The first checkpoint of the sample run holds [c_a] under "aaa". *)
Lemma checkpoints_have_no_orphans_witness :
  EvSaveProgress [normalized Sample.c_a] {["aaa"]}
    ∈ io_log (process_commits int_of_decimal Sample.py_sleep Sample.listing Sample.detail 5 2
                Sample.sched Sample.fetcher0) ∧
  ∀ id, id ∈ ({["aaa"]} : gset string) ↔
        ∃ info, info ∈ [normalized Sample.c_a] ∧ ident info = id.
Proof.
  assert (EvSaveProgress [normalized Sample.c_a] {["aaa"]}
            ∈ io_log (process_commits int_of_decimal Sample.py_sleep Sample.listing Sample.detail 5 2
                        Sample.sched Sample.fetcher0)) as Hin.
  { replace (io_log _) with
      [EvFetchCommits 1; EvProcessed "aaa";
       save_progress_event Sample.fetcher1; EvSleep 6; EvFetchCommits 2;
       EvSaveCommitFiles "bbb" (mk_detail [("README.md", Some "+hello")]);
       EvSaveCommitFiles "ccc" (mk_detail [("README.md", Some "+hello")]);
       EvProcessed "ccc"; EvProcessed "bbb";
       save_progress_event Sample.fetcher3; EvSleep 6]
      by (vm_compute; reflexivity).
    do 2 right. left. }
  split; [exact Hin |].
  destruct (checkpoints_have_no_orphans int_of_decimal Sample.py_sleep Sample.listing Sample.detail 5 2
              Sample.sched Sample.fetcher0 _ _ Hin) as (_ & _ & Hno).
  apply Hno. apply sample_fetcher0_invariant.
Defined.

Lemma sample_quiet_run_returns :
  io_res (process_commits int_of_decimal Sample.py_sleep Sample.listing Sample.detail 5 2
            Sample.sched Sample.fetcher_quiet) = Ret Sample.fetcher_quiet3.
Proof. vm_compute; reflexivity. Qed.

(** Without a stop identifier the sample run lists the pages 1, 2 and 3,
    and page 3 is empty. *)
Lemma unconfigured_run_ends_at_empty_page_witness :
  no_stop_identifier Sample.fetcher_quiet ∧
  ∃ k, fetched_pages (io_log (process_commits int_of_decimal Sample.py_sleep Sample.listing Sample.detail
                                5 2 Sample.sched Sample.fetcher_quiet)) = seq 1 (S k) ∧
       page_ends_run int_of_decimal Sample.py_sleep Sample.listing 2 (S k) ∧
       ∀ q, (1 ≤ q ≤ k)%nat → page_listed int_of_decimal Sample.py_sleep Sample.listing 2 q.
Proof.
  assert (no_stop_identifier Sample.fetcher_quiet) as Hno by (by left).
  split; [exact Hno |].
  apply (unconfigured_run_ends_at_empty_page int_of_decimal Sample.py_sleep Sample.listing Sample.detail
           5 2 Sample.sched Sample.fetcher_quiet Sample.fetcher_quiet3 Hno
           sample_quiet_run_returns).
Defined.

Lemma sample_urls_end_in_sha : urls_end_in_sha int_of_decimal Sample.py_sleep Sample.listing 2.
Proof.
  intros page cs Hpage commit Hin.
  destruct page as [| [| [| page]]]; vm_compute in Hpage; injection Hpage as <-.
  - by apply elem_of_nil in Hin.
  - apply list_elem_of_singleton in Hin. by subst commit.
  - apply elem_of_cons in Hin as [-> | Hin]; [done |].
    apply list_elem_of_singleton in Hin. by subst commit.
  - by apply elem_of_nil in Hin.
Qed.

(** A second run over the sample, from what the first one returned and
    under another scheduler, returns the same progress. *)
Lemma resume_adds_nothing_witness :
  urls_end_in_sha int_of_decimal Sample.py_sleep Sample.listing 2 ∧
  io_res (process_commits int_of_decimal Sample.py_sleep Sample.listing Sample.detail 5 2
            Sample.sched Sample.fetcher0) = Ret Sample.fetcher3 ∧
  io_res (process_commits int_of_decimal Sample.py_sleep Sample.listing Sample.detail 5 2
            (λ _, []) Sample.fetcher3) = Ret Sample.fetcher3.
Proof.
  split; [exact sample_urls_end_in_sha |]. split; [exact sample_run_returns |].
  apply (resume_adds_nothing int_of_decimal Sample.py_sleep Sample.listing Sample.detail 5 2
           Sample.sched (λ _, []) Sample.fetcher0 Sample.fetcher3
           sample_urls_end_in_sha sample_run_returns).
Defined.

Lemma sample_page_distinct : page_distinct [Sample.c_b; Sample.c_c].
Proof.
  split.
  - simpl. apply NoDup_cons. split; [| apply NoDup_singleton].
    intros Hin. apply list_elem_of_singleton in Hin. discriminate Hin.
  - intros commit Hin. apply elem_of_cons in Hin as [-> | Hin]; [reflexivity |].
    apply list_elem_of_singleton in Hin. by subst commit.
Qed.

Lemma sample_page_returns :
  io_res (run_page int_of_decimal Sample.py_sleep Sample.detail 1 (Sample.sched 2)
            [Sample.c_b; Sample.c_c] Sample.fetcher1) = Ret Sample.fetcher3.
Proof. vm_compute; reflexivity. Qed.

(** Page 2 of the sample, taken in the order of [Sample.sched], appends the
    records of [c_b] and [c_c] in some order. *)
Lemma run_page_schedule_independent_witness :
  page_distinct [Sample.c_b; Sample.c_c] ∧
  io_res (run_page int_of_decimal Sample.py_sleep Sample.detail 1 (Sample.sched 2)
            [Sample.c_b; Sample.c_c] Sample.fetcher1) = Ret Sample.fetcher3 ∧
  ∃ new,
    commits_info Sample.fetcher3 = commits_info Sample.fetcher1 ++ new ∧
    new ≡ₚ normalized <$> fresh_items Sample.fetcher1 [Sample.c_b; Sample.c_c] ∧
    processed_commits Sample.fetcher3
      = processed_commits Sample.fetcher1
        ∪ list_to_set (sha <$> [Sample.c_b; Sample.c_c]).
Proof.
  split; [exact sample_page_distinct |]. split; [exact sample_page_returns |].
  destruct sample_fetcher1_invariant as [Hno Hone].
  apply (run_page_schedule_independent int_of_decimal Sample.py_sleep Sample.detail 1 (Sample.sched 2)
           [Sample.c_b; Sample.c_c] Sample.fetcher1 Sample.fetcher3
           sample_page_distinct Hno Hone sample_page_returns).
Defined.


(** Saving the progress of "o"/"r" changes nothing for "o"/"s". *)
Lemma save_leaves_other_repositories_witness :
  no_underscore (repo_owner Sample.fetcher1) = true ∧
  init read_progress_file (save_progress_at Sample.fetcher1 ∅) "o" "s" 100 None false
    (Some "t0ken") None
  = init read_progress_file ∅ "o" "s" 100 None false (Some "t0ken") None.
Proof.
  split; [reflexivity |].
  apply (save_leaves_other_repositories read_progress_file ∅ Sample.fetcher1 "o" "s"
           100 None false (Some "t0ken") None); [reflexivity | reflexivity |].
  intros Heq. discriminate Heq.
Defined.

Lemma sample_workers_return page cs :
  fetch_commits int_of_decimal Sample.py_sleep Sample.listing 2 page = Ret (Some cs) →
  workers_return int_of_decimal Sample.py_sleep Sample.detail 2 cs.
Proof.
  intros Hpage commit Hin.
  destruct page as [| [| [| page]]]; vm_compute in Hpage; injection Hpage as <-.
  - by apply elem_of_nil in Hin.
  - apply list_elem_of_singleton in Hin. subst commit. eexists. vm_compute; reflexivity.
  - apply elem_of_cons in Hin as [-> | Hin]; [eexists; vm_compute; reflexivity |].
    apply list_elem_of_singleton in Hin. subst commit. eexists. vm_compute; reflexivity.
  - by apply elem_of_nil in Hin.
Qed.

Lemma sample_page_responds page :
  page_responds int_of_decimal Sample.py_sleep Sample.listing Sample.detail 2 page.
Proof.
  assert (∃ data, fetch_commits int_of_decimal Sample.py_sleep Sample.listing 2 page = Ret data)
    as [data Hdata].
  { destruct page as [| [| [| page]]]; eexists; vm_compute; reflexivity. }
  exists data. split; [done |]. intros cs ->. by eapply sample_workers_return.
Qed.

(** The sample listing ends at page 3, and a run with five turns returns. *)
Lemma process_commits_returns_witness :
  page_ends_run int_of_decimal Sample.py_sleep Sample.listing 2 3 ∧
  ∃ self',
    io_res (process_commits int_of_decimal Sample.py_sleep Sample.listing Sample.detail 5 2
              Sample.sched Sample.fetcher_quiet) = Ret self'.
Proof.
  assert (page_ends_run int_of_decimal Sample.py_sleep Sample.listing 2 3) as Hend
    by (right; vm_compute; reflexivity).
  split; [exact Hend |].
  apply (process_commits_returns int_of_decimal Sample.py_sleep Sample.listing Sample.detail 5 2
           Sample.sched Sample.fetcher_quiet 3); [lia | | exact Hend].
  intros q _. apply sample_page_responds.
Defined.

Lemma sample_pages_distinct : pages_distinct int_of_decimal Sample.py_sleep Sample.listing 2.
Proof.
  intros page cs Hpage.
  destruct page as [| [| [| page]]]; vm_compute in Hpage; injection Hpage as <-.
  - split; [apply NoDup_nil_2 | by intros ? ?%elem_of_nil].
  - split; [apply NoDup_singleton |].
    intros commit Hin. apply list_elem_of_singleton in Hin. by subst commit.
  - apply sample_page_distinct.
  - split; [apply NoDup_nil_2 | by intros ? ?%elem_of_nil].
Qed.

(** The sample run ends with one record for each of "aaa", "bbb", "ccc". *)
Lemma harvest_has_one_record_each_witness :
  pages_distinct int_of_decimal Sample.py_sleep Sample.listing 2 ∧
  io_res (process_commits int_of_decimal Sample.py_sleep Sample.listing Sample.detail 5 2
            Sample.sched Sample.fetcher0) = Ret Sample.fetcher3 ∧
  no_orphans Sample.fetcher3 ∧ one_record_each Sample.fetcher3 ∧
  NoDup (commits_info Sample.fetcher3).
Proof.
  split; [exact sample_pages_distinct |]. split; [exact sample_run_returns |].
  destruct sample_fetcher0_invariant as [Hno Hone].
  apply (harvest_has_one_record_each int_of_decimal Sample.py_sleep Sample.listing Sample.detail 5 2
           Sample.sched Sample.fetcher0 Sample.fetcher3
           sample_pages_distinct Hno Hone sample_run_returns).
Defined.
